(** * Keewepa landing page: the Page Localizer and its widgets

    A shallow embedding of [scripts.js] (class [TranslationManager]) and
    of the part of the browser it talks to: the document tree with
    [querySelector], [textContent], [innerHTML], [classList] and
    [setAttribute]; the resource cache and [fetch]; the testimonial slider
    and the launch countdown.

    Conventions of the embedding.
    - A language resource is a flat JSON object of strings, a
      [gmap string string]; the cache [translations] is a
      [gmap string (gmap string string)].  A resource object is truthy, a
      string is truthy when it is not empty.
    - In module [Localizer] an [async] method runs to completion as one
      transition; the answer of the network to a [fetch] is an argument
      [net] of the transition.  In module [Overlap] a call of
      [changeLanguage] gives way where it awaits, and calls overlap.
    - A language code is a string that is no property of
      [Object.prototype] and that can stand between the quotes of an
      attribute selector, as 'ar', 'fr' and 'en' are.
    - The document is the [body] element with its subtree; [html] and
      [head] carry nothing the script selects. *)

From stdpp Require Import gmap strings list pretty.
From Stdlib Require Import ZArith Lia.

#[local] Open Scope string_scope.
#[local] Open Scope list_scope.

(** ** The document tree *)
Module Dom.

(** What the script reads and writes of one element. *)
Record props := Props {
  attributes : list (string * string);
  classList : list string;
  placeholder : option string
}.

#[local] Unset Elimination Schemes.
Inductive node :=
| Text (data : string)
| Elem (e : props) (childNodes : list node).
#[local] Set Elimination Schemes.

(** The [body] element: its own properties and its child nodes. *)
Record document := Document {
  body : props;
  bodyNodes : list node
}.

Definition path := list nat.

Definition rootNode (d : document) : node := Elem (body d) (bodyNodes d).

Definition isElem (n : node) : bool :=
  match n with Elem _ _ => true | Text _ => false end.

(** [element.getAttribute(name)] *)
Fixpoint getAttr (name : string) (l : list (string * string)) : option string :=
  match l with
  | [] => None
  | (k, v) :: r => if decide (k = name) then Some v else getAttr name r
  end.

Definition getAttribute (name : string) (e : props) : option string :=
  getAttr name (attributes e).

(** [element.setAttribute(name, value)]: overwrite in place, or append. *)
Fixpoint setAttr (name value : string) (l : list (string * string)) : list (string * string) :=
  match l with
  | [] => [(name, value)]
  | (k, v) :: r =>
      if decide (k = name) then (k, value) :: r else (k, v) :: setAttr name value r
  end.

Definition setAttribute (name value : string) (e : props) : props :=
  Props (setAttr name value (attributes e)) (classList e) (placeholder e).

(** [element.classList]: [contains], [add], [remove]. *)
Definition hasClass (c : string) (e : props) : bool :=
  bool_decide (c ∈ classList e).

Definition classAdd (c : string) (e : props) : props :=
  Props (attributes e)
        (if decide (c ∈ classList e) then classList e else classList e ++ [c])
        (placeholder e).

Definition classRemove (c : string) (e : props) : props :=
  Props (attributes e) (filter (λ x, x ≠ c) (classList e)) (placeholder e).

(** The selectors the script uses. *)
Inductive selector :=
| ByDataKey (key : string)      (* [data-key="key"] *)
| ByStatLabel (n : nat)         (* .stat-item:nth-child(n) .stat-label *)
| ByClass (c : string)          (* .c *)
| ByLangOption (lang : string)  (* .lang-option[data-lang="lang"] *)
| ById (id : string).           (* getElementById(id) *)

#[global] Instance selector_eq_dec : EqDecision selector.
Proof. solve_decision. Defined.

(** Does the element match the last compound of the selector?  [under]
    tells whether one of its ancestors matches the compound in front of the
    descendant combinator. *)
Definition matches (sel : selector) (under : bool) (e : props) : bool :=
  match sel with
  | ByDataKey k => bool_decide (getAttribute "data-key" e = Some k)
  | ByStatLabel _ => under && hasClass "stat-label" e
  | ByClass c => hasClass c e
  | ByLangOption l =>
      hasClass "lang-option" e && bool_decide (getAttribute "data-lang" e = Some l)
  | ById i => bool_decide (getAttribute "id" e = Some i)
  end.

(** Does the element, the [pos]-th element child of its parent, match the
    compound in front of the descendant combinator? *)
Definition anchor (sel : selector) (pos : nat) (e : props) : bool :=
  match sel with
  | ByStatLabel n => hasClass "stat-item" e && bool_decide (pos = n)
  | _ => false
  end.

(** First hit of [f] among the nodes [l], in order; [i] is the index of the
    head of [l] in its parent and [pos] the number of element siblings in
    front of it. *)
Fixpoint scan (f : nat → node → option path) (i pos : nat) (l : list node) : option path :=
  match l with
  | [] => None
  | c :: r =>
      match f (S pos) c with
      | Some p => Some (i :: p)
      | None => scan f (S i) (if isElem c then S pos else pos) r
      end
  end.

(** The first element in document order that matches, as the path of child
    indices that leads to it. *)
Fixpoint qsNode (sel : selector) (under : bool) (pos : nat) (n : node) : option path :=
  match n with
  | Text _ => None
  | Elem e kids =>
      if matches sel under e then Some []
      else scan (qsNode sel (under || anchor sel pos e)) 0 0 kids
  end.

(** [document.querySelector(sel)]; [body] is the second child of [html]. *)
Definition querySelector (sel : selector) (d : document) : option path :=
  qsNode sel false 2 (rootNode d).

Definition getElementById (id : string) (d : document) : option path :=
  querySelector (ById id) d.

(** An update of one element: new properties and new children. *)
Definition elemFn : Type := props → list node → props * list node.

Fixpoint modifyAt (p : path) (g : elemFn) (n : node) : node :=
  match n with
  | Text s => Text s
  | Elem e kids =>
      match p with
      | [] => let '(e', kids') := g e kids in Elem e' kids'
      | i :: p' => Elem e (alter (modifyAt p' g) i kids)
      end
  end.

Definition modifyDoc (p : path) (g : elemFn) (d : document) : document :=
  match p with
  | [] => let '(e', kids') := g (body d) (bodyNodes d) in Document e' kids'
  | i :: p' => Document (body d) (alter (modifyAt p' g) i (bodyNodes d))
  end.

(** The element a path leads to. *)
Fixpoint elemAt (p : path) (n : node) : option (props * list node) :=
  match n with
  | Text _ => None
  | Elem e kids =>
      match p with
      | [] => Some (e, kids)
      | i :: p' => kids !! i ≫= elemAt p'
      end
  end.

(** [element.textContent = s] *)
Definition setTextContent (s : string) : elemFn :=
  λ e _, (e, if decide (s = "") then [] else [Text s]).

(** [element.innerHTML = s], for the fragment parser [parse]. *)
Definition setInnerHTML (parse : string → list node) (s : string) : elemFn :=
  λ e _, (e, parse s).

(** [element.placeholder = s] *)
Definition setPlaceholder (s : string) : elemFn :=
  λ e kids, (Props (attributes e) (classList e) (Some s), kids).

(** A change of the element's own properties. *)
Definition onProps (f : props → props) : elemFn := λ e kids, (f e, kids).

(** [document.querySelectorAll('.c').forEach(el => f(el))] *)
Fixpoint forEachNode (c : string) (f : props → props) (n : node) : node :=
  match n with
  | Text s => Text s
  | Elem e kids => Elem (if hasClass c e then f e else e) (map (forEachNode c f) kids)
  end.

Definition forEachByClass (c : string) (f : props → props) (d : document) : document :=
  Document (if hasClass c (body d) then f (body d) else body d)
           (map (forEachNode c f) (bodyNodes d)).

(** Elements that a region binding can select: they carry a [data-key]
    attribute or the class [stat-label]. *)
Definition bindable (e : props) : bool :=
  bool_decide (is_Some (getAttribute "data-key" e)) || hasClass "stat-label" e.

(** No element of the subtree can be selected by a region binding. *)
Fixpoint bindableFree (n : node) : bool :=
  match n with
  | Text _ => true
  | Elem e kids => negb (bindable e) && forallb bindableFree kids
  end.

(** Regions are not nested: below an element that a binding can select
    there is no other such element. *)
Fixpoint separated (n : node) : bool :=
  match n with
  | Text _ => true
  | Elem e kids =>
      if bindable e then forallb bindableFree kids else forallb separated kids
  end.

(** [g] after [g'] on one element. *)
Definition after (g g' : elemFn) : elemFn :=
  λ e kids, let '(e', kids') := g' e kids in g e' kids'.

(** Two paths lead to elements none of which is inside the other. *)
Definition apart (p q : path) : Prop := ¬ p `prefix_of` q ∧ ¬ q `prefix_of` p.

(** The path leads to an element that a binding can select and that has no
    such element below it. *)
Definition regionAt (p : path) (n : node) : Prop :=
  ∃ e kids, elemAt p n = Some (e, kids)
            ∧ bindable e = true ∧ forallb bindableFree kids = true.

(** An update that keeps what the selectors look at, the attributes and the
    classes, and puts no selectable element below the element. *)
Definition tidy (g : elemFn) : Prop :=
  ∀ e kids, forallb bindableFree kids = true →
    attributes (g e kids).1 = attributes e
    ∧ classList (g e kids).1 = classList e
    ∧ forallb bindableFree (g e kids).2 = true.

(** The selectors of the region bindings. *)
Definition regionSelector (sel : selector) : bool :=
  match sel with
  | ByDataKey _ | ByStatLabel _ => true
  | _ => false
  end.

End Dom.

(** ** Runs of updates that overwrite or commute *)
Module Actions.

Section Run.

Context {X : Type}.

Definition absorbs (a b : X → X) : Prop := ∀ x, a (b x) = a x.

Definition commutes (a b : X → X) : Prop := ∀ x, a (b x) = b (a x).

(** Two updates of the same place, where the later one wins, or of
    different places. *)
Definition compatible (a b : X → X) : Prop :=
  (absorbs a b ∧ absorbs b a) ∨ commutes a b.

Definition run (l : list (X → X)) (x : X) : X := foldl (λ x a, a x) x l.

End Run.

End Actions.

(** ** The launch countdown ([startCountdown]) *)
Module Countdown.
Import Dom.

#[local] Open Scope Z_scope.

Definition msPerDay : Z := 1000 * 60 * 60 * 24.
Definition msPerHour : Z := 1000 * 60 * 60.
Definition msPerMinute : Z := 1000 * 60.

(** [n.toString().padStart(2, '0')] *)
Definition padStart2 (s : string) : string :=
  match String.length s with
  | 0%nat => "00"
  | 1%nat => "0" +:+ s
  | _ => s
  end.

Definition show (n : Z) : string := padStart2 (pretty n).

(** The four numbers of a tick, from [diff = launchDate - now]. *)
Record fields := Fields { days : Z; hours : Z; minutes : Z; seconds : Z }.

Definition split (diff : Z) : fields :=
  Fields (diff / msPerDay)
         (Z.rem diff msPerDay / msPerHour)
         (Z.rem diff msPerHour / msPerMinute)
         (Z.rem diff msPerMinute / 1000).

(** [if (el) el.innerText = text], for an element looked up before. *)
Definition setInnerText (el : option path) (text : string) (d : document) : document :=
  match el with
  | Some p => modifyDoc p (setTextContent text) d
  | None => d
  end.

Section WithZone.

(** The offset of local time from UTC in milliseconds, as the host computes
    it for an instant given in UTC and for one given in local time. *)
Variable utcOffset : Z → Z.
Variable localOffset : Z → Z.

(** [launchDate.setDate(launchDate.getDate() + 30)] on the time value [t]:
    thirty days later on the local clock. *)
Definition plus30Days (t : Z) : Z :=
  let wall := t + utcOffset t + 30 * msPerDay in
  wall - localOffset wall.

(** By how much the zone offset in force at [t] exceeds the one in force
    thirty days later on the local clock (zero without a change of
    offset, an hour across a change of daylight saving time). *)
Definition shift (t : Z) : Z :=
  utcOffset t - localOffset (t + utcOffset t + 30 * msPerDay).

(** [launchDate - now] of one tick; [t0] and [t1] are the readings of the
    clock by the first and by the second [new Date()]. *)
Definition remaining (t0 t1 : Z) : Z := plus30Days t0 - t1.

(** [updateCountdown()]: the four elements are looked up first, then
    written to. *)
Definition updateCountdown (t0 t1 : Z) (d : document) : document :=
  let f := split (remaining t0 t1) in
  let daysElement := getElementById "days" d in
  let hoursElement := getElementById "hours" d in
  let minutesElement := getElementById "minutes" d in
  let secondsElement := getElementById "seconds" d in
  let d := setInnerText daysElement (show (days f)) d in
  let d := setInnerText hoursElement (show (hours f)) d in
  let d := setInnerText minutesElement (show (minutes f)) d in
  setInnerText secondsElement (show (seconds f)) d.

(** [startCountdown()]: one call of [updateCountdown] at once and one per
    second from the interval timer; [ticks] are the readings of the clock
    by these calls, in order. *)
Definition startCountdown (ticks : list (Z * Z)) (d : document) : document :=
  foldl (λ d tick, updateCountdown tick.1 tick.2 d) d ticks.

End WithZone.

End Countdown.

(** ** The Page Localizer ([TranslationManager]) *)
Module Localizer.
Import Dom.

(** [type] argument of [updateElement]. *)
Inductive updateType := TextMode | HtmlMode | PlaceholderMode.

Record binding := Binding {
  bSelector : selector;
  bKey : string;
  bType : updateType
}.

#[global] Instance updateType_eq_dec : EqDecision updateType.
Proof. solve_decision. Defined.

#[global] Instance binding_eq_dec : EqDecision binding.
Proof. solve_decision. Defined.

(** The calls of [updateElement] in [updateUI], in source order. *)
Definition regionBindings : list binding := [
  Binding (ByDataKey "home") "home" TextMode;
  Binding (ByDataKey "features") "features" TextMode;
  Binding (ByDataKey "about") "about" TextMode;
  Binding (ByDataKey "contact") "contact" TextMode;
  Binding (ByDataKey "hero_title") "hero_title" HtmlMode;
  Binding (ByDataKey "hero_description") "hero_description" TextMode;
  Binding (ByDataKey "hero_cta") "hero_cta" TextMode;
  Binding (ByDataKey "hero_demo") "hero_demo" TextMode;
  Binding (ByDataKey "launch_countdown") "launch_countdown" TextMode;
  Binding (ByDataKey "days_label") "days_label" TextMode;
  Binding (ByDataKey "hours_label") "hours_label" TextMode;
  Binding (ByDataKey "minutes_label") "minutes_label" TextMode;
  Binding (ByDataKey "seconds_label") "seconds_label" TextMode;
  Binding (ByDataKey "features_title") "features_title" TextMode;
  Binding (ByDataKey "features_description") "features_description" TextMode;
  Binding (ByDataKey "gallery_title") "gallery_title" TextMode;
  Binding (ByDataKey "gallery_description") "gallery_description" TextMode;
  Binding (ByDataKey "all_gallery") "all_gallery" TextMode;
  Binding (ByDataKey "men_gallery") "men_gallery" TextMode;
  Binding (ByDataKey "women_gallery") "women_gallery" TextMode;
  Binding (ByDataKey "salons_gallery") "salons_gallery" TextMode;
  Binding (ByDataKey "gallery_caption1") "gallery_caption1" TextMode;
  Binding (ByDataKey "gallery_desc1") "gallery_desc1" TextMode;
  Binding (ByDataKey "gallery_caption2") "gallery_caption2" TextMode;
  Binding (ByDataKey "gallery_desc2") "gallery_desc2" TextMode;
  Binding (ByDataKey "gallery_caption3") "gallery_caption3" TextMode;
  Binding (ByDataKey "gallery_desc3") "gallery_desc3" TextMode;
  Binding (ByDataKey "gallery_caption4") "gallery_caption4" TextMode;
  Binding (ByDataKey "gallery_desc4") "gallery_desc4" TextMode;
  Binding (ByDataKey "gallery_caption5") "gallery_caption5" TextMode;
  Binding (ByDataKey "gallery_desc5") "gallery_desc5" TextMode;
  Binding (ByDataKey "gallery_caption6") "gallery_caption6" TextMode;
  Binding (ByDataKey "gallery_desc6") "gallery_desc6" TextMode;
  Binding (ByDataKey "view_all_gallery") "view_all_gallery" TextMode;
  Binding (ByDataKey "testimonials_title") "testimonials_title" TextMode;
  Binding (ByDataKey "testimonials_description") "testimonials_description" TextMode;
  Binding (ByDataKey "verified") "verified" TextMode;
  Binding (ByStatLabel 1) "customer_rating" TextMode;
  Binding (ByStatLabel 2) "happy_customers" TextMode;
  Binding (ByStatLabel 3) "recommend_us" TextMode;
  Binding (ByDataKey "cta_title") "cta_title" TextMode;
  Binding (ByDataKey "cta_description") "cta_description" TextMode;
  Binding (ByDataKey "cta_placeholder") "cta_placeholder" PlaceholderMode;
  Binding (ByDataKey "cta_button") "cta_button" TextMode;
  Binding (ByDataKey "footer_title") "footer_title" TextMode;
  Binding (ByDataKey "footer_description") "footer_description" HtmlMode;
  Binding (ByDataKey "copyright") "copyright" HtmlMode;
  Binding (ByDataKey "quick_links") "quick_links" TextMode;
  Binding (ByDataKey "services") "services" TextMode;
  Binding (ByDataKey "contact_us") "contact_us" TextMode;
  Binding (ByDataKey "feature1_title") "feature1_title" TextMode;
  Binding (ByDataKey "feature1_desc") "feature1_desc" TextMode;
  Binding (ByDataKey "feature2_title") "feature2_title" TextMode;
  Binding (ByDataKey "feature2_desc") "feature2_desc" TextMode;
  Binding (ByDataKey "feature3_title") "feature3_title" TextMode;
  Binding (ByDataKey "feature3_desc") "feature3_desc" TextMode;
  Binding (ByDataKey "feature4_title") "feature4_title" TextMode;
  Binding (ByDataKey "feature4_desc") "feature4_desc" TextMode;
  Binding (ByDataKey "feature5_title") "feature5_title" TextMode;
  Binding (ByDataKey "feature5_desc") "feature5_desc" TextMode;
  Binding (ByDataKey "feature6_title") "feature6_title" TextMode;
  Binding (ByDataKey "feature6_desc") "feature6_desc" TextMode;
  Binding (ByDataKey "testimonial1_text") "testimonial1_text" TextMode;
  Binding (ByDataKey "testimonial1_name") "testimonial1_name" TextMode;
  Binding (ByDataKey "testimonial1_role") "testimonial1_role" TextMode;
  Binding (ByDataKey "testimonial2_text") "testimonial2_text" TextMode;
  Binding (ByDataKey "testimonial2_name") "testimonial2_name" TextMode;
  Binding (ByDataKey "testimonial2_role") "testimonial2_role" TextMode;
  Binding (ByDataKey "testimonial3_text") "testimonial3_text" TextMode;
  Binding (ByDataKey "testimonial3_name") "testimonial3_name" TextMode;
  Binding (ByDataKey "testimonial3_role") "testimonial3_role" TextMode;
  Binding (ByDataKey "home_footer") "home_footer" TextMode;
  Binding (ByDataKey "about_footer") "about_footer" TextMode;
  Binding (ByDataKey "features_footer") "features_footer" TextMode;
  Binding (ByDataKey "privacy") "privacy" TextMode;
  Binding (ByDataKey "terms") "terms" TextMode;
  Binding (ByDataKey "service1") "service1" TextMode;
  Binding (ByDataKey "service2") "service2" TextMode;
  Binding (ByDataKey "service3") "service3" TextMode;
  Binding (ByDataKey "service4") "service4" TextMode;
  Binding (ByDataKey "service5") "service5" TextMode;
  Binding (ByDataKey "address") "address" TextMode;
  Binding (ByDataKey "phone") "phone" TextMode;
  Binding (ByDataKey "email") "email" TextMode
].

(** What [fetch] and [response.json()] can give. *)
Inductive response :=
| NetworkError
| Response (status : Z) (json : option (gmap string string)).

Definition ok (status : Z) : bool := (200 <=? status)%Z && (status <=? 299)%Z.

Inductive loadError :=
| FetchRejected
| HttpError (status : Z)
| JsonRejected.

(** Lines written by [console.error]. *)
Inductive diagnostic :=
| LoadFailed (lang : string) (err : loadError)
| NoTranslations (lang : string).

Record state := State {
  currentLang : string;
  translations : gmap string (gmap string string);
  page : document;
  console : list diagnostic;
  requests : list string   (* the codes [fetch] was called for, oldest first *)
}.

Definition setCurrentLang (lang : string) (s : state) : state :=
  State lang (translations s) (page s) (console s) (requests s).

Definition setPage (d : document) (s : state) : state :=
  State (currentLang s) (translations s) d (console s) (requests s).

Definition store (lang : string) (r : gmap string string) (s : state) : state :=
  State (currentLang s) (<[lang := r]> (translations s)) (page s) (console s) (requests s).

Definition consoleError (m : diagnostic) (s : state) : state :=
  State (currentLang s) (translations s) (page s) (console s ++ [m]) (requests s).

Definition fetch (lang : string) (s : state) : state :=
  State (currentLang s) (translations s) (page s) (console s) (requests s ++ [lang]).

(** [loadLanguage(lang)] *)
Definition loadLanguage (net : string → response) (lang : string) (s : state) : state :=
  let s := fetch lang s in
  match net lang with
  | NetworkError => consoleError (LoadFailed lang FetchRejected) s
  | Response status json =>
      if ok status then
        match json with
        | Some r => setCurrentLang lang (store lang r s)
        | None => consoleError (LoadFailed lang JsonRejected) s
        end
      else consoleError (LoadFailed lang (HttpError status)) s
  end.

(** Did the load of [lang] fail: no answer, a status outside 200..299, or
    a body that is not JSON? *)
Definition loadFails (net : string → response) (lang : string) : Prop :=
  match net lang with
  | NetworkError => True
  | Response status json => ok status = false ∨ json = None
  end.

(** A string is truthy when it is not empty; [undefined] is falsy. *)
Definition truthy (content : option string) : bool :=
  match content with
  | Some c => negb (bool_decide (c = ""))
  | None => false
  end.

(** [d] has the regions of [d0]: no nested regions, and the region
    selectors find in it what they find in [d0]. *)
Definition alike (d d0 : document) : Prop :=
  separated (rootNode d) = true
  ∧ ∀ sel, regionSelector sel = true → querySelector sel d = querySelector sel d0.

Section WithParser.

(** The HTML fragment parser behind [innerHTML]. *)
Variable parseHTML : string → list node.

Definition write (type : updateType) (c : string) : elemFn :=
  match type with
  | HtmlMode => setInnerHTML parseHTML c
  | PlaceholderMode => setPlaceholder c
  | TextMode => setTextContent c
  end.

(** [updateElement(selector, content, type)] *)
Definition updateElement (sel : selector) (content : option string) (type : updateType)
    (d : document) : document :=
  match querySelector sel d, content with
  | Some p, Some c => if truthy content then modifyDoc p (write type c) d else d
  | _, _ => d
  end.

(** One call of [updateElement] in [updateUI], for the resource [t]. *)
Definition syncRegion (t : gmap string string) (d : document) (b : binding) : document :=
  updateElement (bSelector b) (t !! bKey b) (bType b) d.

Definition syncRegions (bs : list binding) (t : gmap string string) (d : document) : document :=
  foldl (syncRegion t) d bs.

(** [updateUI()] *)
Definition updateUI (s : state) : state :=
  match translations s !! currentLang s with
  | None => consoleError (NoTranslations (currentLang s)) s
  | Some t => setPage (syncRegions regionBindings t (page s)) s
  end.

(** The markup values of the resource bring no selectable element. *)
Definition markupClean (bs : list binding) (t : gmap string string) : bool :=
  forallb (λ b, match bType b, t !! bKey b with
                | HtmlMode, Some c => forallb bindableFree (parseHTML c)
                | _, _ => true
                end) bs.

(** What [syncRegion] does for a binding on the document [d]: the element
    it writes to and the update, if any. *)
Definition resolve (t : gmap string string) (d : document) (b : binding)
    : option (path * elemFn) :=
  match querySelector (bSelector b) d, t !! bKey b with
  | Some p, Some c => if truthy (Some c) then Some (p, write (bType b) c) else None
  | _, _ => None
  end.

Definition perform (o : option (path * elemFn)) (d : document) : document :=
  match o with
  | Some (p, g) => modifyDoc p g d
  | None => d
  end.


(** The binding's value brings no selectable element. *)
Definition clean (t : gmap string string) (b : binding) : Prop :=
  match bType b, t !! bKey b with
  | HtmlMode, Some c => forallb bindableFree (parseHTML c) = true
  | _, _ => True
  end.

(** The steps of [updateUI] as updates at the elements found on [d0]. *)
Definition steps (t : gmap string string) (d0 : document) (bs : list binding)
    : list (document → document) :=
  map (λ b, perform (resolve t d0 b)) bs.

Definition atFirst (sel : selector) (g : elemFn) (d : document) : document :=
  match querySelector sel d with
  | Some p => modifyDoc p g d
  | None => d
  end.

(** The label of the language menu, the three [if]s of [changeLanguage]. *)
Definition langTextFn (lang : string) : elemFn :=
  λ e kids,
    let '(e, kids) := if decide (lang = "ar") then setTextContent "العربية" e kids else (e, kids) in
    let '(e, kids) := if decide (lang = "fr") then setTextContent "Français" e kids else (e, kids) in
    if decide (lang = "en") then setTextContent "English" e kids else (e, kids).

Definition setDirection (lang : string) (d : document) : document :=
  if decide (lang = "ar") then
    modifyDoc [] (onProps (setAttribute "dir" "rtl"))
      (modifyDoc [] (onProps (classRemove "ltr")) d)
  else
    modifyDoc [] (onProps (setAttribute "dir" "ltr"))
      (modifyDoc [] (onProps (classAdd "ltr")) d).

(** [changeLanguage(lang)] *)
Definition changeLanguage (net : string → response) (lang : string) (s : state) : state :=
  if decide (lang = currentLang s) then s
  else
    let s := match translations s !! lang with
             | None => loadLanguage net lang s
             | Some _ => s
             end in
    let s := updateUI (setCurrentLang lang s) in
    let d := forEachByClass "lang-option" (classRemove "active") (page s) in
    let d := atFirst (ByLangOption lang) (onProps (classAdd "active")) d in
    let d := atFirst (ByClass "current-lang") (langTextFn lang) d in
    let d := setDirection lang d in
    let d := atFirst (ByClass "lang-dropdown") (onProps (classRemove "show")) d in
    setPage d s.

(** The state that the constructor leaves, for the document [d]. *)
Definition initial (d : document) : state := State "ar" ∅ d [] [].

(** [init()]: the first load; [setupEventListeners()], which registers the
    handlers and creates the slider and writes nothing to the manager or
    to the page; [updateUI()]; [startCountdown()], whose call of
    [updateCountdown] at once reads the clock at [t0] and [t1] on a host
    with the zone offsets [utcOffset] and [localOffset]. *)
Definition init (net : string → response) (utcOffset localOffset : Z → Z)
    (t0 t1 : Z) (d : document) : state :=
  let s := loadLanguage net (currentLang (initial d)) (initial d) in
  let s := updateUI s in
  setPage (Countdown.startCountdown utcOffset localOffset [(t0, t1)] (page s)) s.

(** One click on a language option, with the answer the network has ready
    for it. *)
Definition click (s : state) (c : (string → response) * string) : state :=
  changeLanguage c.1 c.2 s.

(** A session without ticks of the countdown after the first: [init],
    then the language options the user clicks. *)
Definition session (net0 : string → response) (utcOffset localOffset : Z → Z)
    (t0 t1 : Z) (d : document)
    (clicks : list ((string → response) * string)) : state :=
  foldl click (init net0 utcOffset localOffset t0 t1 d) clicks.

End WithParser.

End Localizer.

(** ** The testimonial slider ([initTestimonialSlider]) *)
Module Slider.
Import Dom.

#[local] Open Scope Z_scope.

(** The numbers the slider computes with: integers and [NaN]. *)
Inductive jsnum := Num (z : Z) | NaN.

Definition jsAdd (a b : jsnum) : jsnum :=
  match a, b with
  | Num x, Num y => Num (x + y)
  | _, _ => NaN
  end.

Definition jsSub (a b : jsnum) : jsnum :=
  match a, b with
  | Num x, Num y => Num (x - y)
  | _, _ => NaN
  end.

(** [a % b]: the remainder has the sign of [a]; the remainder by zero is
    [NaN]. *)
Definition jsRem (a b : jsnum) : jsnum :=
  match a, b with
  | Num x, Num y => if decide (y = 0) then NaN else Num (Z.rem x y)
  | _, _ => NaN
  end.

(** The variables the three handlers close over. *)
Record slider := Slider {
  slides : list props;       (* the elements of class testimonial-slide *)
  currentSlide : jsnum
}.

Definition slideCount (s : slider) : jsnum := Num (Z.of_nat (length (slides s))).

(** [slides[index]] *)
Definition item (index : jsnum) (l : list props) : option props :=
  match index with
  | Num z => if decide (0 ≤ z) then l !! Z.to_nat z else None
  | NaN => None
  end.

Inductive completion := Normal | ThrowTypeError.

(** [showSlide(index)]: the slides lose the class [active] first; reading
    [classList] of [undefined] throws before [currentSlide] is assigned. *)
Definition showSlide (index : jsnum) (s : slider) : slider * completion :=
  let cleared := map (classRemove "active") (slides s) in
  match index, item index cleared with
  | Num z, Some _ =>
      (Slider (alter (classAdd "active") (Z.to_nat z) cleared) index, Normal)
  | _, _ => (Slider cleared (currentSlide s), ThrowTypeError)
  end.

Definition nextIndex (s : slider) : jsnum :=
  jsRem (jsAdd (currentSlide s) (Num 1)) (slideCount s).

Definition prevIndex (s : slider) : jsnum :=
  jsRem (jsAdd (jsSub (currentSlide s) (Num 1)) (slideCount s)) (slideCount s).

(** What can reach the slider: the two buttons and the interval timer. *)
Inductive event := NextClick | PrevClick | AutoAdvance.

Definition handle (ev : event) (s : slider) : slider * completion :=
  match ev with
  | NextClick => showSlide (nextIndex s) s
  | PrevClick => showSlide (prevIndex s) s
  | AutoAdvance => showSlide (nextIndex s) s
  end.

(** The state an event leaves; an exception ends the handler only. *)
Definition after (ev : event) (s : slider) : slider := (handle ev s).1.

Definition initTestimonialSlider (l : list props) : slider := Slider l (Num 0).

(** The states the slider can be in. *)
Inductive reachable (l : list props) : slider → Prop :=
| reach_init : reachable l (initTestimonialSlider l)
| reach_step ev s : reachable l s → reachable l (after ev s).

(** The indices of the slides that carry the class [active]. *)
(** The slider is in range when [currentSlide] is the index [i] of a slide. *)
Definition inRange (s : slider) (i : Z) : Prop :=
  currentSlide s = Num i ∧ 0 ≤ i < Z.of_nat (length (slides s)).

Definition isActive (s : slider) (i : nat) : bool :=
  match slides s !! i with
  | Some e => hasClass "active" e
  | None => false
  end.

Definition activeSlides (s : slider) : list nat :=
  filter (λ i, isActive s i = true) (seq 0%nat (length (slides s))).

End Slider.


(** ** More of the document: checks over all elements, [classList.toggle], [contains] *)
Module DomMore.
Import Dom.

(** [P] holds of every element of the subtree. *)
Fixpoint everyElem (P : props → bool) (n : node) : bool :=
  match n with
  | Text _ => true
  | Elem e kids => P e && forallb (everyElem P) kids
  end.

(** [element.classList.toggle(c)] *)
Definition classToggle (c : string) (e : props) : props :=
  if hasClass c e then classRemove c e else classAdd c e.

(** [node.contains(other)], for two nodes of the document given by their
    paths: [other] is the node itself or lies below it. *)
Definition contains (p other : path) : bool := bool_decide (p `prefix_of` other).

(** [node.textContent]: the texts of the subtree, in document order. *)
Fixpoint textContent (n : node) : string :=
  match n with
  | Text s => s
  | Elem _ kids => String.concat "" (map textContent kids)
  end.

(** [textContent] of the element a path leads to. *)
Definition textAt (p : path) (n : node) : option string :=
  (λ ek, textContent (Elem ek.1 ek.2)) <$> elemAt p n.

End DomMore.

(** ** The counters of the countdown on the page *)
Module Counters.
Import Dom DomMore.

(** The page has the four counters, at the paths [pd], [ph], [pm] and
    [ps], and none of them lies inside another. *)
Definition countersAt (pd ph pm ps : path) (d : document) : Prop :=
  getElementById "days" d = Some pd
  ∧ getElementById "hours" d = Some ph
  ∧ getElementById "minutes" d = Some pm
  ∧ getElementById "seconds" d = Some ps
  ∧ apart pd ph ∧ apart pd pm ∧ apart pd ps
  ∧ apart ph pm ∧ apart ph ps ∧ apart pm ps.

(** The four numbers of a tick, in the order of the counters. *)
Definition numbers (f : Countdown.fields) : list Z :=
  [Countdown.days f; Countdown.hours f; Countdown.minutes f; Countdown.seconds f].

(** What the elements at the paths [l] show. *)
Definition displayed (l : list path) (d : document) : list (option string) :=
  map (λ p, textAt p (rootNode d)) l.

End Counters.

(** ** Calls of [changeLanguage] that overlap

    A call of [changeLanguage] that has to load gives way twice: while
    [fetch] and [response.json()] are pending, and when its
    [loadLanguage] has returned.  Other clicks and other answers can come
    in between. *)
Module Overlap.
Import Dom Localizer.

(** [loadLanguage(lang)] from the answer of the network on: the rest of
    the [try] block, or the [catch] block. *)
Definition received (r : response) (lang : string) (s : state) : state :=
  match r with
  | NetworkError => consoleError (LoadFailed lang FetchRejected) s
  | Response status json =>
      if ok status then
        match json with
        | Some r => setCurrentLang lang (store lang r s)
        | None => consoleError (LoadFailed lang JsonRejected) s
        end
      else consoleError (LoadFailed lang (HttpError status)) s
  end.

(** The calls under way: the codes whose [fetch] has no answer yet, and
    the codes of the calls whose [loadLanguage] has returned and that have
    not gone on yet, both oldest first. *)
Record calls := Calls {
  now : state;
  fetching : list string;
  returning : list string
}.

Inductive event :=
| Click (lang : string)             (* a click on the option of [lang] *)
| Answer (k : nat) (r : response)   (* the answer to the [k]-th fetch under way *)
| Resume (k : nat).                 (* the [k]-th call that has loaded goes on *)

Section WithParser.

Variable parseHTML : string → list node.

(** [changeLanguage(lang)] behind the load: from [this.currentLang = lang]
    to the end. *)
Definition resume (lang : string) (s : state) : state :=
  let s := updateUI parseHTML (setCurrentLang lang s) in
  let d := forEachByClass "lang-option" (classRemove "active") (page s) in
  let d := atFirst (ByLangOption lang) (onProps (classAdd "active")) d in
  let d := atFirst (ByClass "current-lang") (langTextFn lang) d in
  let d := setDirection lang d in
  let d := atFirst (ByClass "lang-dropdown") (onProps (classRemove "show")) d in
  setPage d s.

Definition step (a : calls) (ev : event) : calls :=
  match ev with
  | Click lang =>
      if decide (lang = currentLang (now a)) then a
      else
        match translations (now a) !! lang with
        | Some _ => Calls (resume lang (now a)) (fetching a) (returning a)
        | None => Calls (fetch lang (now a)) (fetching a ++ [lang]) (returning a)
        end
  | Answer k r =>
      match fetching a !! k with
      | Some lang =>
          Calls (received r lang (now a)) (delete k (fetching a)) (returning a ++ [lang])
      | None => a
      end
  | Resume k =>
      match returning a !! k with
      | Some lang => Calls (resume lang (now a)) (fetching a) (delete k (returning a))
      | None => a
      end
  end.

Definition run (evs : list event) (a : calls) : calls := foldl step a evs.

End WithParser.

End Overlap.

(** ** The language menu as [changeLanguage] leaves it *)
Module LanguageMenu.
Import Dom Localizer.

(** The network has the resource of [lang] ready. *)
Definition serves (net : string → response) (lang : string) : Prop :=
  ∃ status r, net lang = Response status (Some r) ∧ ok status = true.

(** An option of the language menu is marked active only if it is the option
    of [lang]. *)
Definition activeOnlyFor (lang : string) (e : props) : bool :=
  negb (hasClass "lang-option" e && hasClass "active" e)
  || bool_decide (getAttribute "data-lang" e = Some lang).

(** The name that [changeLanguage] puts on the language menu. *)
Definition languageName (lang : string) : option string :=
  if decide (lang = "ar") then Some "العربية"
  else if decide (lang = "fr") then Some "Français"
  else if decide (lang = "en") then Some "English"
  else None.

End LanguageMenu.

(** ** The handlers that [setupEventListeners] registers *)
Module Menu.
Import Dom DomMore.

Inductive completion := Normal | ThrowTypeError.

(** Click on the language toggle: the listener toggles the class [show] of
    the menu, which it looks up without a check. *)
Definition toggleClick (d : document) : document * completion :=
  match querySelector (ByClass "lang-dropdown") d with
  | Some p => (modifyDoc p (onProps (classToggle "show")) d, Normal)
  | None => (d, ThrowTypeError)
  end.

(** Click anywhere else in the document, on the element at [target]: the
    menu is closed unless the click was inside the language selector. *)
Definition documentClick (target : path) (d : document) : document * completion :=
  match querySelector (ByClass "language-selector") d with
  | Some langSelector =>
      if contains langSelector target then (d, Normal)
      else
        match querySelector (ByClass "lang-dropdown") d with
        | Some p => (modifyDoc p (onProps (classRemove "show")) d, Normal)
        | None => (d, ThrowTypeError)
        end
  | None => (d, Normal)
  end.

(** Click on the gallery control at [button]: every control loses the class
    [active], the clicked one gets it; the result comes with the value of
    its [data-filter] attribute, which goes to [filterGallery]. *)
Definition filterClick (button : path) (d : document) : document * option string :=
  let d := forEachByClass "control-btn" (classRemove "active") d in
  let d := modifyDoc button (onProps (classAdd "active")) d in
  (d, elemAt button (rootNode d) ≫= λ ek, getAttribute "data-filter" ek.1).

End Menu.

(** ** The gallery filter ([filterGallery]) and its timers *)
Module Gallery.

(** What the filter reads and writes of one gallery item: its
    [data-category] attribute and three properties of its inline style. *)
Record item := Item {
  dataCategory : option string;
  display : string;
  opacity : string;
  transform : string
}.

(** The two callbacks handed to [setTimeout], for the item of index [i]. *)
Inductive task :=
| Reveal (i : nat)     (* opacity = '1', transform = 'scale(1)' *)
| Collapse (i : nat).  (* display = 'none' *)

#[global] Instance task_eq_dec : EqDecision task.
Proof. solve_decision. Defined.

Record timer := Timer {
  due : nat;    (* in milliseconds *)
  todo : task
}.

(** The gallery items in document order, the timers that are pending, in
    the order of their creation, and the clock. *)
Record gallery := Gallery {
  items : list item;
  timers : list timer;
  now : nat
}.

(** [category === 'all' || item.getAttribute('data-category') === category] *)
Definition selected (category : string) (it : item) : bool :=
  bool_decide (category = "all") || bool_decide (dataCategory it = Some category).

(** What one pass of the [forEach] does to its item at once. *)
Definition touch (category : string) (it : item) : item :=
  if selected category it then Item (dataCategory it) "block" (opacity it) (transform it)
  else Item (dataCategory it) (display it) "0" "scale(0.95)".

(** The timer that the pass for the item of index [i] starts. *)
Definition schedule (category : string) (t : nat) (i : nat) (it : item) : timer :=
  if selected category it then Timer (t + 10)%nat (Reveal i) else Timer (t + 300)%nat (Collapse i).

(** [filterGallery(category)] *)
Definition filterGallery (category : string) (g : gallery) : gallery :=
  Gallery (touch category <$> items g)
          (timers g ++ imap (schedule category (now g)) (items g))
          (now g).

Definition fire (t : task) (its : list item) : list item :=
  match t with
  | Reveal i => alter (λ it, Item (dataCategory it) (display it) "1" "scale(1)") i its
  | Collapse i => alter (λ it, Item (dataCategory it) "none" (opacity it) (transform it)) i its
  end.

(** Timers fire in the order of their due times, those with the same due
    time in the order of their creation. *)
Fixpoint enqueue (t : timer) (q : list timer) : list timer :=
  match q with
  | [] => [t]
  | u :: r => if decide (due u ≤ due t)%nat then u :: enqueue t r else t :: u :: r
  end.

Definition byDue (l : list timer) : list timer := foldl (λ q t, enqueue t q) [] l.

(** The clock advances by [dt] milliseconds: the timers that are due fire. *)
Definition elapse (dt : nat) (g : gallery) : gallery :=
  let t := (now g + dt)%nat in
  Gallery (foldl (λ its x, fire (todo x) its) (items g)
             (byDue (filter (λ x, (due x ≤ t)%nat) (timers g))))
          (filter (λ x, (t < due x)%nat) (timers g))
          t.

(** What the timers [l] do to the item of index [i]. *)
Definition fired (i : nat) (l : list timer) (it : item) : item :=
  Item (dataCategory it)
       (if bool_decide (Collapse i ∈ todo <$> l) then "none" else display it)
       (if bool_decide (Reveal i ∈ todo <$> l) then "1" else opacity it)
       (if bool_decide (Reveal i ∈ todo <$> l) then "scale(1)" else transform it).

End Gallery.

(** ** Runs of the slider *)
Module SliderRuns.
Import Dom Slider.

#[local] Open Scope Z_scope.

(** The slider after a sequence of clicks and timer ticks. *)
Definition runEvents (evs : list event) (s : slider) : slider :=
  foldl (λ s ev, after ev s) s evs.

(** How many slides forward a sequence of events asks for. *)
Definition displacement (evs : list event) : Z :=
  foldr (λ ev z, match ev with PrevClick => z - 1 | _ => z + 1 end) 0 evs.

End SliderRuns.

(** ** Sample data for the examples *)
Module Samples.
Import Dom Localizer.

(** Sample data for the examples: a page with a language menu and two
    regions, two resources, a network that serves them and one that is
    down. *)
Definition el (attrs : list (string * string)) (classes : list string) : props :=
  Props attrs classes None.

Definition samplePage : document :=
  Document (el [("dir", "rtl")] [])
    [ Elem (el [] ["lang-dropdown"; "show"])
        [ Elem (el [("data-lang", "ar")] ["lang-option"; "active"]) [Text "AR"];
          Elem (el [("data-lang", "fr")] ["lang-option"]) [Text "FR"] ];
      Elem (el [] ["current-lang"]) [Text "AR"];
      Elem (el [("data-key", "hero_title")] []) [Text "..."];
      Elem (el [("data-key", "home")] []) [Text "..."] ].

Definition arResource : gmap string string :=
  {[ "home" := "Accueil AR"; "hero_title" := "Keewepa AR" ]}.

Definition frResource : gmap string string :=
  {[ "home" := "Accueil"; "hero_title" := "Keewepa" ]}.

Definition online (lang : string) : response :=
  if decide (lang = "ar") then Response 200 (Some arResource)
  else if decide (lang = "fr") then Response 200 (Some frResource)
  else Response 404 None.

Definition offline (lang : string) : response := NetworkError.

(** A fragment parser for strings without markup. *)
Definition plainText (s : string) : list node := [Text s].

(** A host on UTC+1 all year, and the clock at 2025-01-01T00:00:00.000Z. *)
Definition utcPlus1 (t : Z) : Z := 3600000.

Definition newYear : Z := 1735689600000.

(** The state after a first load of 'ar' that went well, and after a
    switch to 'fr' from there. *)
Definition loaded : state :=
  init plainText online utcPlus1 utcPlus1 newYear newYear samplePage.

Definition bilingual : state := changeLanguage plainText online "fr" loaded.

(** Three testimonial slides, the first one active in the markup. *)
Definition threeSlides : list props :=
  [ el [] ["testimonial-slide"; "active"];
    el [] ["testimonial-slide"];
    el [] ["testimonial-slide"] ].

(** The four counters of the countdown, as the markup has them. *)
Definition counters : document :=
  Document (el [] [])
    [ Elem (el [("id", "days")] []) [Text "00"];
      Elem (el [("id", "hours")] []) [Text "00"];
      Elem (el [("id", "minutes")] []) [Text "00"];
      Elem (el [("id", "seconds")] []) [Text "00"] ].

(** A page on which the region of 'home' lies inside the region of
    'features', with a second element for 'home' after them. *)
Definition nestedPage : document :=
  Document (el [] [])
    [ Elem (el [("data-key", "features")] [])
        [ Elem (el [("data-key", "home")] []) [Text "x"] ];
      Elem (el [("data-key", "home")] []) [Text "y"] ].

Definition navResource : gmap string string :=
  {[ "home" := "Home"; "features" := "Features" ]}.

Definition nestedState : state :=
  State "en" {[ "en" := navResource ]} nestedPage [] [].




(** The sample page with a resource that has the hero title only, and with
    an empty resource. *)
Definition welcomeResource : gmap string string := {[ "hero_title" := "Welcome" ]}.

Definition welcomeState : state :=
  State "en" {[ "en" := welcomeResource; "xx" := ∅ ]} samplePage [] [].

End Samples.

(** ** More sample data *)
Module MoreSamples.
Import Dom Localizer Samples Gallery.

(** A page with the language selector, two gallery controls and a region. *)
Definition menuPage : document :=
  Document (el [("dir", "rtl")] [])
    [ Elem (el [] ["language-selector"])
        [ Elem (el [] ["lang-toggle"])
            [ Elem (el [] ["current-lang"]) [Text "AR"] ];
          Elem (el [] ["lang-dropdown"; "show"])
            [ Elem (el [("data-lang", "ar")] ["lang-option"; "active"]) [Text "AR"];
              Elem (el [("data-lang", "fr")] ["lang-option"]) [Text "FR"] ] ];
      Elem (el [] ["gallery-controls"])
        [ Elem (el [("data-filter", "all")] ["control-btn"; "active"]) [Text "All"];
          Elem (el [("data-filter", "men")] ["control-btn"]) [Text "Men"] ];
      Elem (el [("data-key", "home")] []) [Text "..."] ].

(** Three gallery items, one of them without a category, as the style
    sheet shows them; no timer is pending. *)
Definition threeItems : gallery :=
  Gallery [ Item (Some "men") "" "" "";
            Item (Some "women") "" "" "";
            Item None "" "" "" ] [] 0.

(** A page with a title region and the four counters. *)
Definition counterPage : document :=
  Document (el [] [])
    [ Elem (el [("data-key", "hero_title")] []) [Text "..."];
      Elem (el [("id", "days")] []) [Text "00"];
      Elem (el [("id", "hours")] []) [Text "00"];
      Elem (el [("id", "minutes")] []) [Text "00"];
      Elem (el [("id", "seconds")] []) [Text "00"] ].

End MoreSamples.

(** ** Facts about the document tree *)
Module DomTheory.
Import Dom.

Lemma node_ind (P : node → Prop) :
  (∀ s, P (Text s)) →
  (∀ e kids, Forall P kids → P (Elem e kids)) →
  ∀ n, P n.
Proof.
  intros HT HE. fix IH 1. intros [s|e kids]; [apply HT|apply HE].
  induction kids as [|c r IHr]; constructor; [apply IH|apply IHr].
Qed.

(** *** Attributes and classes *)

Lemma getAttr_setAttr_eq name value l : getAttr name (setAttr name value l) = Some value.
Proof.
  induction l as [|[k v] r IH]; cbn.
  - by rewrite decide_True.
  - destruct (decide (k = name)) as [->|Hne]; cbn.
    + by rewrite decide_True.
    + by rewrite decide_False.
Qed.

Lemma getAttr_setAttr_ne name name' value l :
  name ≠ name' → getAttr name' (setAttr name value l) = getAttr name' l.
Proof.
  intros Hne. induction l as [|[k v] r IH]; cbn.
  - by rewrite decide_False.
  - destruct (decide (k = name)) as [->|Hk]; cbn.
    + by rewrite !decide_False.
    + destruct (decide (k = name')); [done|apply IH].
Qed.

Lemma getAttribute_setAttribute_eq name value e :
  getAttribute name (setAttribute name value e) = Some value.
Proof. apply getAttr_setAttr_eq. Qed.

Lemma hasClass_setAttribute c name value e :
  hasClass c (setAttribute name value e) = hasClass c e.
Proof. done. Qed.

Lemma getAttribute_classRemove name c e :
  getAttribute name (classRemove c e) = getAttribute name e.
Proof. done. Qed.

Lemma getAttribute_classAdd name c e :
  getAttribute name (classAdd c e) = getAttribute name e.
Proof. done. Qed.

Lemma hasClass_classRemove_eq c e : hasClass c (classRemove c e) = false.
Proof.
  unfold hasClass, classRemove. cbn. apply bool_decide_eq_false.
  rewrite list_elem_of_filter. by intros [Hne _].
Qed.

Lemma hasClass_classRemove_ne c c' e :
  c ≠ c' → hasClass c (classRemove c' e) = hasClass c e.
Proof.
  intros Hne. unfold hasClass, classRemove. cbn. apply bool_decide_ext.
  rewrite list_elem_of_filter. tauto.
Qed.

Lemma hasClass_classAdd_eq c e : hasClass c (classAdd c e) = true.
Proof.
  unfold hasClass, classAdd. cbn. apply bool_decide_eq_true.
  case_decide; [done|]. apply elem_of_app. right. by apply list_elem_of_singleton.
Qed.

Lemma hasClass_classAdd_ne c c' e :
  c ≠ c' → hasClass c (classAdd c' e) = hasClass c e.
Proof.
  intros Hne. unfold hasClass, classAdd. cbn. apply bool_decide_ext.
  case_decide; [done|]. rewrite elem_of_app, list_elem_of_singleton. tauto.
Qed.

(** *** The body element under updates of the tree *)

Lemma body_modifyDoc_onProps p f d :
  body (modifyDoc p (onProps f) d) = match p with [] => f (body d) | _ => body d end.
Proof. by destruct p. Qed.

End DomTheory.

(** ** Overwriting and commuting updates *)
Module ActionsTheory.
Import Actions.

Section Run.

Context {X : Type}.
Implicit Types (a b : X → X) (l : list (X → X)).

Lemma run_cons a l x : run (a :: l) x = run l (a x).
Proof. done. Qed.

Lemma run_snoc a l x : run (l ++ [a]) x = a (run l x).
Proof. unfold run. by rewrite foldl_app. Qed.

(** An update hides its own earlier run behind updates it is compatible
    with. *)
Lemma absorbs_through a l x :
  absorbs a a →
  (∀ b, b ∈ l → compatible a b) →
  a (run l (a x)) = a (run l x).
Proof.
  intros Ha. revert x. induction l as [|b l IH]; intros x Hl.
  - apply Ha.
  - rewrite !run_cons.
    assert (Hl' : ∀ c, c ∈ l → compatible a c).
    { intros c Hc. apply Hl. by right. }
    destruct (Hl b) as [[_ Hba]|Hcomm]; [by left| |].
    + by rewrite Hba.
    + rewrite <- Hcomm. by apply IH.
Qed.

Lemma run_hides l : ∀ l' x,
  (∀ a, a ∈ l ++ l' → absorbs a a) →
  (∀ a b, a ∈ l ++ l' → b ∈ l ++ l' → compatible a b) →
  run l (run l' (run l x)) = run l (run l' x).
Proof.
  induction l as [|a l IH]; intros l' x Hidem Hcomp; [done|].
  assert (grow : ∀ b, b ∈ l ++ l' ++ [a] → b ∈ (a :: l) ++ l').
  { intros b. rewrite !elem_of_app, !elem_of_cons, elem_of_nil. tauto. }
  rewrite !run_cons, <- !(run_snoc a l').
  rewrite IH.
  - rewrite !(run_snoc a l'). f_equal. apply absorbs_through.
    + apply Hidem. by left.
    + intros b Hb. apply Hcomp; [by left|]. right. apply elem_of_app. by right.
  - intros b Hb. apply Hidem. by apply grow.
  - intros b c Hb Hc. apply Hcomp; by apply grow.
Qed.

(** A run of pairwise compatible idempotent updates is idempotent. *)
Lemma run_idempotent l x :
  (∀ a, a ∈ l → absorbs a a) →
  (∀ a b, a ∈ l → b ∈ l → compatible a b) →
  run l (run l x) = run l x.
Proof.
  intros Hidem Hcomp. apply (run_hides l [] x); by rewrite app_nil_r.
Qed.

End Run.

End ActionsTheory.

(** ** Updates of the tree at paths *)
Module TreeTheory.
Import Dom DomTheory.

Lemma rootNode_inj d d' : rootNode d = rootNode d' → d = d'.
Proof. destruct d, d'. unfold rootNode. cbn. by intros [= -> ->]. Qed.

Lemma rootNode_modifyDoc p g d : rootNode (modifyDoc p g d) = modifyAt p g (rootNode d).
Proof.
  unfold rootNode. destruct p as [|i p]; cbn; [|done].
  by destruct (g (body d) (bodyNodes d)).
Qed.

Lemma isElem_modifyAt p g n : isElem (modifyAt p g n) = isElem n.
Proof. destruct n as [s|e kids]; [by destruct p|]. destruct p; cbn; [|done]. by destruct (g e kids). Qed.

Lemma modifyAt_ext p g g' n :
  (∀ e kids, g e kids = g' e kids) → modifyAt p g n = modifyAt p g' n.
Proof.
  intros Hext. revert n. induction p as [|i p IH]; intros [s|e kids]; cbn; try done.
  - by rewrite Hext.
  - f_equal. apply list_alter_ext; [|done]. intros x _. apply IH.
Qed.

(** Two updates of the same element are one. *)
Lemma modifyAt_modifyAt p g g' n :
  modifyAt p g (modifyAt p g' n) = modifyAt p (after g g') n.
Proof.
  revert n. induction p as [|i p IH]; intros [s|e kids]; cbn; try done.
  - unfold after. destruct (g' e kids) as [e' kids']. cbn. done.
  - f_equal. rewrite list_alter_alter_eq. apply list_alter_ext; [|done].
    intros x _. apply IH.
Qed.

(** Updates of elements that are apart commute. *)
Lemma modifyAt_apart p q g g' n :
  apart p q →
  modifyAt p g (modifyAt q g' n) = modifyAt q g' (modifyAt p g n).
Proof.
  revert q n. induction p as [|i p IH]; intros q n [Hpq Hqp].
  - destruct Hpq. apply prefix_nil.
  - destruct q as [|j q]; [destruct Hqp; apply prefix_nil|].
    destruct n as [s|e kids]; [done|]. cbn. f_equal.
    destruct (decide (i = j)) as [->|Hne].
    + rewrite !list_alter_alter_eq. apply list_alter_ext; [|done].
      intros x _. cbn. apply IH. split.
      * intros Hpre. apply Hpq. by apply prefix_cons.
      * intros Hpre. apply Hqp. by apply prefix_cons.
    + by apply list_alter_alter_ne.
Qed.

Lemma elemAt_modifyAt_eq p g n :
  elemAt p (modifyAt p g n) = (λ ek, g ek.1 ek.2) <$> elemAt p n.
Proof.
  revert n. induction p as [|i p IH]; intros [s|e kids]; cbn; try done.
  - by destruct (g e kids).
  - rewrite list_lookup_alter_eq. destruct (kids !! i) as [c|]; cbn; [apply IH|done].
Qed.

Lemma elemAt_modifyAt_apart p q g n :
  apart p q → elemAt p (modifyAt q g n) = elemAt p n.
Proof.
  revert q n. induction p as [|i p IH]; intros q n [Hpq Hqp].
  - destruct Hpq. apply prefix_nil.
  - destruct q as [|j q]; [destruct Hqp; apply prefix_nil|].
    destruct n as [s|e kids]; [done|]. cbn.
    destruct (decide (i = j)) as [->|Hne].
    + rewrite list_lookup_alter_eq. destruct (kids !! j) as [c|]; cbn; [|done].
      apply IH. split.
      * intros Hpre. apply Hpq. by apply prefix_cons.
      * intros Hpre. apply Hqp. by apply prefix_cons.
    + by rewrite list_lookup_alter_ne.
Qed.

(** *** What the selectors see *)

Lemma matches_look sel under e e' :
  attributes e' = attributes e → classList e' = classList e →
  matches sel under e' = matches sel under e.
Proof.
  intros Ha Hc. unfold matches, getAttribute, hasClass. by rewrite Ha, Hc.
Qed.

Lemma anchor_look sel pos e e' :
  classList e' = classList e → anchor sel pos e' = anchor sel pos e.
Proof. intros Hc. unfold anchor, hasClass. by rewrite Hc. Qed.

Lemma bindable_look e e' :
  attributes e' = attributes e → classList e' = classList e →
  bindable e' = bindable e.
Proof.
  intros Ha Hc. unfold bindable, getAttribute, hasClass. by rewrite Ha, Hc.
Qed.

Lemma matches_bindable sel under e :
  regionSelector sel = true → matches sel under e = true → bindable e = true.
Proof.
  unfold bindable. destruct sel; try done; cbn; intros _ Hm.
  - apply bool_decide_eq_true in Hm. rewrite Hm.
    rewrite bool_decide_eq_true_2 by (by eexists). done.
  - apply andb_true_iff in Hm as [_ ->]. apply orb_true_r.
Qed.

(** *** The scan of the children *)

Lemma scan_none f i pos l :
  Forall (λ c, ∀ k, f k c = None) l → scan f i pos l = None.
Proof.
  intros Hl. revert i pos. induction Hl as [|c r Hc _ IH]; intros i pos; [done|].
  cbn. rewrite Hc. apply IH.
Qed.

Lemma scan_Some f j pos l p :
  scan f j pos l = Some p →
  ∃ i c k p', p = (j + i)%nat :: p' ∧ l !! i = Some c ∧ f k c = Some p'.
Proof.
  revert j pos. induction l as [|c r IH]; intros j pos; [done|]. cbn.
  destruct (f (S pos) c) as [p'|] eqn:Hc.
  - intros [= <-]. exists 0%nat, c, (S pos), p'. by rewrite Nat.add_0_r.
  - intros Hr. destruct (IH _ _ Hr) as (i & c' & k & p' & -> & Hi & Hf).
    exists (S i), c', k, p'. split; [f_equal; lia|done].
Qed.

Lemma scan_alter f h j pos l i :
  (∀ c, l !! i = Some c → (∀ k, f k (h c) = f k c) ∧ isElem (h c) = isElem c) →
  scan f j pos (alter h i l) = scan f j pos l.
Proof.
  revert i j pos. induction l as [|c r IH]; intros i j pos Hh; [done|].
  destruct i as [|i]; cbn.
  - destruct (Hh c eq_refl) as [Hf He]. by rewrite Hf, He.
  - destruct (f (S pos) c); [done|]. apply IH. intros c' Hc'. by apply Hh.
Qed.

(** Below an element without selectable descendants the region selectors
    find nothing. *)
Lemma bindableFree_qsNode sel n :
  regionSelector sel = true → bindableFree n = true →
  ∀ under pos, qsNode sel under pos n = None.
Proof.
  intros Hsel. induction n as [s|e kids IH] using node_ind; [done|].
  cbn. intros Hfree under pos. apply andb_true_iff in Hfree as [He Hkids].
  destruct (matches sel under e) eqn:Hm.
  { apply matches_bindable in Hm; [|done]. by rewrite Hm in He. }
  apply scan_none. rewrite Forall_forall in IH. apply Forall_forall.
  intros c Hc k. apply IH; [done|].
  rewrite forallb_forall in Hkids. apply Hkids. by apply list_elem_of_In.
Qed.

Lemma bindableFree_scan sel under kids i pos :
  regionSelector sel = true → forallb bindableFree kids = true →
  scan (qsNode sel under) i pos kids = None.
Proof.
  intros Hsel Hkids. apply scan_none. apply Forall_forall. intros c Hc k.
  apply bindableFree_qsNode; [done|].
  rewrite forallb_forall in Hkids. apply Hkids. by apply list_elem_of_In.
Qed.

Lemma bindableFree_elemAt p n e kids :
  bindableFree n = true → elemAt p n = Some (e, kids) → bindable e = false.
Proof.
  revert n. induction p as [|i p IH]; intros [s|e' kids'] Hfree; cbn; try done.
  - intros [= -> ->]. cbn in Hfree. apply andb_true_iff in Hfree as [He _].
    by apply negb_true_iff.
  - destruct (kids' !! i) as [c|] eqn:Hc; cbn; [|done].
    apply IH. cbn in Hfree. apply andb_true_iff in Hfree as [_ Hkids].
    rewrite forallb_forall in Hkids. apply Hkids.
    apply list_elem_of_In. by eapply list_elem_of_lookup_2.
Qed.

(** *** Regions *)

(** What a region selector finds on a page without nested regions is a
    region. *)
Lemma qsNode_regionAt sel n :
  regionSelector sel = true → separated n = true →
  ∀ under pos p, qsNode sel under pos n = Some p → regionAt p n.
Proof.
  intros Hsel. induction n as [s|e kids IH] using node_ind; [done|].
  cbn. intros Hsep under pos p.
  destruct (matches sel under e) eqn:Hm.
  - intros [= <-]. apply matches_bindable in Hm; [|done]. rewrite Hm in Hsep.
    by exists e, kids.
  - intros Hscan. destruct (scan_Some _ _ _ _ _ Hscan) as (i & c & k & p' & -> & Hi & Hq).
    destruct (bindable e) eqn:Hb.
    + rewrite bindableFree_scan in Hscan by done. done.
    + rewrite Forall_forall in IH. rewrite forallb_forall in Hsep.
      assert (Hin : c ∈ kids) by (by eapply list_elem_of_lookup_2).
      destruct (IH c Hin (Hsep c (proj1 (list_elem_of_In _ _) Hin)) _ _ _ Hq)
        as (e' & kids' & Hat & Hbe & Hfree).
      exists e', kids'. split; [|done]. cbn. by rewrite Hi.
Qed.

(** Two regions are the same element or apart. *)
Lemma regionAt_apart p q n :
  regionAt p n → regionAt q n → p = q ∨ apart p q.
Proof.
  assert (Hstrict : ∀ p k n, k ≠ [] → regionAt p n → regionAt (p ++ k) n → False).
  { clear. intros p k. induction p as [|i p IH]; intros [s|e kids] Hk.
    - by intros (? & ? & ? & _).
    - intros (e1 & k1 & [= <- <-] & Hb & Hfree) (e2 & k2 & Hat & Hb2 & _).
      destruct k as [|j k]; [done|]. cbn in Hat.
      destruct (kids !! j) as [c|] eqn:Hc; cbn in Hat; [|done].
      rewrite forallb_forall in Hfree.
      assert (Hfc : bindableFree c = true).
      { apply Hfree. apply list_elem_of_In. by eapply list_elem_of_lookup_2. }
      by rewrite (bindableFree_elemAt _ _ _ _ Hfc Hat) in Hb2.
    - by intros (? & ? & ? & _).
    - intros (e1 & k1 & Hat1 & Hr1) (e2 & k2 & Hat2 & Hr2). cbn in Hat1, Hat2.
      destruct (kids !! i) as [c|]; cbn in Hat1, Hat2; [|done].
      apply (IH c Hk); [by exists e1, k1|by exists e2, k2]. }
  intros Hp Hq. destruct (decide (p = q)) as [|Hne]; [by left|]. right. split.
  - intros [k ->]. apply (Hstrict p k n); [|done|done].
    intros ->. by rewrite app_nil_r in Hne.
  - intros [k ->]. apply (Hstrict q k n); [|done|done].
    intros ->. by rewrite app_nil_r in Hne.
Qed.

Lemma forallb_alter {A} (f : A → bool) (h : A → A) i l :
  forallb f l = true →
  (∀ c, l !! i = Some c → f (h c) = true) →
  forallb f (alter h i l) = true.
Proof.
  revert i. induction l as [|c r IH]; intros i; [done|]. cbn.
  intros Hl Hh. apply andb_true_iff in Hl as [Hc Hr].
  destruct i as [|i]; cbn; apply andb_true_iff.
  - split; [by apply Hh|done].
  - split; [done|]. apply IH; [done|]. intros c' Hc'. by apply Hh.
Qed.

(** A tidy update of a region leaves the page without nested regions. *)
Lemma separated_modifyAt p g n :
  tidy g → regionAt p n → separated n = true → separated (modifyAt p g n) = true.
Proof.
  intros Hg. revert n. induction p as [|i p IH]; intros [s|e kids]; try done.
  - intros (e1 & k1 & [= <- <-] & Hb & Hfree) _. cbn.
    destruct (Hg e kids Hfree) as (Ha & Hc & Hk).
    destruct (g e kids) as [e' kids']. cbn in *.
    by rewrite (bindable_look _ _ Ha Hc), Hb.
  - intros (e1 & k1 & Hat & Hb & Hfree). cbn in Hat. cbn.
    destruct (kids !! i) as [c|] eqn:Hc; cbn in Hat; [|done].
    destruct (bindable e) eqn:Hbe.
    + intros Hkids. rewrite forallb_forall in Hkids.
      assert (Hfc : bindableFree c = true).
      { apply Hkids. apply list_elem_of_In. by eapply list_elem_of_lookup_2. }
      by rewrite (bindableFree_elemAt _ _ _ _ Hfc Hat) in Hb.
    + intros Hkids. apply forallb_alter; [done|].
      intros c' Hc'. assert (c' = c) as -> by congruence.
      apply IH; [by exists e1, k1|].
      rewrite forallb_forall in Hkids. apply Hkids.
      apply list_elem_of_In. by eapply list_elem_of_lookup_2.
Qed.

(** A tidy update of a region does not change what the region selectors
    find. *)
Lemma qsNode_modifyAt sel p g n :
  regionSelector sel = true → tidy g → regionAt p n →
  ∀ under pos, qsNode sel under pos (modifyAt p g n) = qsNode sel under pos n.
Proof.
  intros Hsel Hg. revert n. induction p as [|i p IH]; intros [s|e kids]; try done.
  - intros (e1 & k1 & [= <- <-] & Hb & Hfree) under pos. cbn.
    destruct (Hg e kids Hfree) as (Ha & Hc & Hk).
    destruct (g e kids) as [e' kids']. cbn in *.
    rewrite (matches_look _ _ _ _ Ha Hc), (anchor_look _ _ _ _ Hc).
    destruct (matches sel under e); [done|].
    by rewrite !bindableFree_scan.
  - intros (e1 & k1 & Hat & Hb & Hfree) under pos. cbn in Hat. cbn.
    destruct (matches sel under e); [done|].
    apply scan_alter. intros c Hc. rewrite Hc in Hat. cbn in Hat. split.
    + intros k. apply IH. by exists e1, k1.
    + apply isElem_modifyAt.
Qed.

End TreeTheory.

(** ** Facts about the localizer's language state *)
Module LocalizerTheory.
Import Dom DomTheory Localizer Samples.

Section WithParser.

Variable parseHTML : string → list node.

Lemma updateUI_currentLang s : currentLang (updateUI parseHTML s) = currentLang s.
Proof. unfold updateUI. by destruct (translations s !! currentLang s). Qed.

Lemma updateUI_translations s : translations (updateUI parseHTML s) = translations s.
Proof. unfold updateUI. by destruct (translations s !! currentLang s). Qed.

Lemma updateUI_requests s : requests (updateUI parseHTML s) = requests s.
Proof. unfold updateUI. by destruct (translations s !! currentLang s). Qed.

(** A load that fails leaves the current language and the cache alone and
    writes one line to the console. *)
Lemma loadLanguage_failure net lang s :
  loadFails net lang →
  currentLang (loadLanguage net lang s) = currentLang s
  ∧ translations (loadLanguage net lang s) = translations s
  ∧ page (loadLanguage net lang s) = page s
  ∧ ∃ err, console (loadLanguage net lang s) = console s ++ [LoadFailed lang err].
Proof.
  unfold loadFails, loadLanguage. destruct (net lang) as [|status json].
  - intros _. repeat split. by eexists.
  - intros [Hok| ->].
    + rewrite Hok. repeat split. by eexists.
    + destruct (ok status); repeat split; by eexists.
Qed.

(** Whatever the load did, [changeLanguage] makes the code current. *)
Lemma changeLanguage_currentLang net lang s :
  currentLang (changeLanguage parseHTML net lang s) = lang.
Proof.
  unfold changeLanguage. case_decide as Hcur; [done|].
  cbn. by rewrite updateUI_currentLang.
Qed.

(** After a load that failed, too: the code is current and has no
    resource. *)
Lemma changeLanguage_after_failed_load net lang s :
  lang ≠ currentLang s → translations s !! lang = None → loadFails net lang →
  currentLang (changeLanguage parseHTML net lang s) = lang
  ∧ translations (changeLanguage parseHTML net lang s) !! lang = None.
Proof.
  intros Hne Hnone Hfail. split; [apply changeLanguage_currentLang|].
  unfold changeLanguage. rewrite decide_False by done. rewrite Hnone.
  cbn [translations setPage]. rewrite updateUI_translations.
  cbn [translations setCurrentLang].
  destruct (loadLanguage_failure net lang s Hfail) as (_ & -> & _). done.
Qed.

Lemma changeLanguage_current net lang s :
  lang = currentLang s → changeLanguage parseHTML net lang s = s.
Proof. intros ->. unfold changeLanguage. by rewrite decide_True. Qed.

Lemma loadLanguage_requests net lang s :
  requests (loadLanguage net lang s) = requests s ++ [lang].
Proof.
  unfold loadLanguage. destruct (net lang) as [|status [r|]]; [done| |];
    by destruct (ok status).
Qed.

Lemma loadLanguage_cache_mono net lang s l :
  is_Some (translations s !! l) → is_Some (translations (loadLanguage net lang s) !! l).
Proof.
  intros Hl. unfold loadLanguage.
  destruct (net lang) as [|status [r|]]; [done| |]; destruct (ok status); try done.
  cbn. destruct (decide (lang = l)) as [->|Hne].
  - rewrite lookup_insert_eq. by eexists.
  - by rewrite lookup_insert_ne.
Qed.

Lemma changeLanguage_translations net lang s :
  translations (changeLanguage parseHTML net lang s) =
  if decide (lang = currentLang s) then translations s
  else match translations s !! lang with
       | None => translations (loadLanguage net lang s)
       | Some _ => translations s
       end.
Proof.
  unfold changeLanguage. case_decide; [done|]. cbn.
  rewrite updateUI_translations. by destruct (translations s !! lang).
Qed.

(** The fetches of one [changeLanguage]: one, and only for a code that is
    neither current nor cached. *)
Lemma changeLanguage_requests net lang s :
  requests (changeLanguage parseHTML net lang s) =
  if decide (lang = currentLang s) then requests s
  else match translations s !! lang with
       | None => requests s ++ [lang]
       | Some _ => requests s
       end.
Proof.
  unfold changeLanguage. case_decide; [done|]. cbn.
  rewrite updateUI_requests. destruct (translations s !! lang); [done|].
  cbn. apply loadLanguage_requests.
Qed.

Lemma changeLanguage_cache_mono net lang s l :
  is_Some (translations s !! l) →
  is_Some (translations (changeLanguage parseHTML net lang s) !! l).
Proof.
  intros Hl. rewrite changeLanguage_translations. case_decide; [done|].
  destruct (translations s !! lang); [done|]. by apply loadLanguage_cache_mono.
Qed.

(** C2, as the code has it: the guard is in [changeLanguage].  It fetches
    only a code that is neither current nor cached, so over any run of
    language switches a resource that is in the cache is not requested
    again. *)
Theorem cached_resource_not_refetched (s : state) (lang : string)
    (clicks : list ((string → response) * string)) :
  is_Some (translations s !! lang) →
  (∀ net, requests (changeLanguage parseHTML net lang s) = requests s)
  ∧ ∃ extra, requests (foldl (click parseHTML) s clicks) = requests s ++ extra ∧ lang ∉ extra.
Proof.
  intros Hc. split.
  - intros net. rewrite changeLanguage_requests. case_decide; [done|].
    by destruct Hc as [r ->].
  - revert s Hc. induction clicks as [|[net l] clicks IH]; intros s Hc.
    + exists []. split; [by rewrite app_nil_r|apply not_elem_of_nil].
    + cbn [foldl]. unfold click at 2. cbn [fst snd].
      destruct (IH (changeLanguage parseHTML net l s)) as (extra & Hreq & Hnot).
      { by apply changeLanguage_cache_mono. }
      rewrite Hreq, changeLanguage_requests. case_decide; [by exists extra|].
      destruct (translations s !! l) eqn:Hl; [by exists extra|].
      exists (l :: extra). split; [by rewrite <- app_assoc|].
      apply not_elem_of_cons. split; [|done].
      intros ->. rewrite Hl in Hc. by destruct Hc.
Qed.

Lemma updateUI_console_resource s t :
  translations s !! currentLang s = Some t → console (updateUI parseHTML s) = console s.
Proof. intros Ht. unfold updateUI. by rewrite Ht. Qed.

(** C3: [changeLanguage(code)] for a code whose resource is loaded makes
    the code current, without a fetch and without a line on the console,
    and a second [changeLanguage(code)] returns the state as it is:
    language, cache, document, console and requests.  This holds for every
    code, 'ar', 'fr' and 'en' among them. *)
Theorem changeLanguage_idempotent (net net' : string → response) (lang : string) (s : state) :
  is_Some (translations s !! lang) →
  currentLang (changeLanguage parseHTML net lang s) = lang
  ∧ requests (changeLanguage parseHTML net lang s) = requests s
  ∧ console (changeLanguage parseHTML net lang s) = console s
  ∧ changeLanguage parseHTML net' lang (changeLanguage parseHTML net lang s)
    = changeLanguage parseHTML net lang s.
Proof.
  intros [t Ht]. split; [apply changeLanguage_currentLang|]. split; [|split].
  - rewrite changeLanguage_requests, Ht. by case_decide.
  - unfold changeLanguage. case_decide as Hcur; [done|]. rewrite Ht.
    cbn [console setPage]. by rewrite (updateUI_console_resource _ t).
  - apply changeLanguage_current. by rewrite changeLanguage_currentLang.
Qed.

(** C7: without a resource for the current language [updateUI] writes one
    line to the console and touches nothing else; the document is the one
    it found. *)
Theorem updateUI_without_resource (s : state) :
  translations s !! currentLang s = None →
  updateUI parseHTML s = consoleError (NoTranslations (currentLang s)) s
  ∧ page (updateUI parseHTML s) = page s
  ∧ console (updateUI parseHTML s) = console s ++ [NoTranslations (currentLang s)].
Proof. intros Hnone. unfold updateUI. by rewrite Hnone. Qed.

Lemma body_atFirst_onProps sel f d :
  body (atFirst sel (onProps f) d) = body d ∨ body (atFirst sel (onProps f) d) = f (body d).
Proof.
  unfold atFirst. destruct (querySelector sel d) as [[|i p]|]; cbn; auto.
Qed.

Lemma body_setDirection lang d :
  body (setDirection lang d) =
  if decide (lang = "ar") then setAttribute "dir" "rtl" (classRemove "ltr" (body d))
  else setAttribute "dir" "ltr" (classAdd "ltr" (body d)).
Proof. unfold setDirection. by case_decide. Qed.

(** The document after a switch to a code that is not current: the menu
    steps are followed by the direction step and the closing of the menu. *)
Lemma changeLanguage_page net lang s :
  lang ≠ currentLang s →
  ∃ d, page (changeLanguage parseHTML net lang s) =
       atFirst (ByClass "lang-dropdown") (onProps (classRemove "show")) (setDirection lang d).
Proof.
  intros Hne. unfold changeLanguage. rewrite decide_False by done. cbn. by eexists.
Qed.

(** C4: a switch to 'ar' (from another current language) leaves the body
    with dir = 'rtl' and without the class ltr; a switch to 'fr' or 'en'
    leaves it with dir = 'ltr' and with the class ltr. *)
Theorem changeLanguage_direction (net : string → response) (lang : string) (s : state) :
  lang ≠ currentLang s →
  let b := body (page (changeLanguage parseHTML net lang s)) in
  (lang = "ar" → getAttribute "dir" b = Some "rtl" ∧ hasClass "ltr" b = false)
  ∧ (lang = "fr" ∨ lang = "en" → getAttribute "dir" b = Some "ltr" ∧ hasClass "ltr" b = true).
Proof.
  intros Hne. cbn zeta.
  destruct (changeLanguage_page net lang s Hne) as [d ->].
  set (d' := setDirection lang d).
  assert (Hdir : getAttribute "dir"
      (body (atFirst (ByClass "lang-dropdown") (onProps (classRemove "show")) d'))
      = getAttribute "dir" (body d')).
  { destruct (body_atFirst_onProps (ByClass "lang-dropdown") (classRemove "show") d')
      as [-> | ->]; [done|apply getAttribute_classRemove]. }
  assert (Hcls : hasClass "ltr"
      (body (atFirst (ByClass "lang-dropdown") (onProps (classRemove "show")) d'))
      = hasClass "ltr" (body d')).
  { destruct (body_atFirst_onProps (ByClass "lang-dropdown") (classRemove "show") d')
      as [-> | ->]; [done|by apply hasClass_classRemove_ne]. }
  rewrite Hdir, Hcls. subst d'. rewrite body_setDirection. split.
  - intros ->. rewrite decide_True by done. split.
    + apply getAttribute_setAttribute_eq.
    + rewrite hasClass_setAttribute. apply hasClass_classRemove_eq.
  - intros Hother. rewrite decide_False by (by destruct Hother as [-> | ->]). split.
    + apply getAttribute_setAttribute_eq.
    + rewrite hasClass_setAttribute. apply hasClass_classAdd_eq.
Qed.

End WithParser.

Example loaded_state :
  currentLang loaded = "ar"
  ∧ translations loaded !! "ar" = Some arResource
  ∧ translations loaded !! "fr" = None
  ∧ requests loaded = ["ar"].
Proof. vm_compute. done. Qed.

(** C1, where the code departs from it: the load of 'fr' fails, and
    [loadLanguage] alone keeps 'ar' current, but [changeLanguage] assigns
    [currentLang] after the load whatever its outcome, so 'fr' becomes
    current with nothing in the cache for it. *)
Theorem changeLanguage_failed_load_switches :
  loadFails offline "fr"
  ∧ currentLang loaded = "ar"
  ∧ currentLang (loadLanguage offline "fr" loaded) = "ar"
  ∧ currentLang (changeLanguage plainText offline "fr" loaded) = "fr"
  ∧ translations (changeLanguage plainText offline "fr" loaded) !! "fr" = None
  ∧ console (changeLanguage plainText offline "fr" loaded)
    = [LoadFailed "fr" FetchRejected; NoTranslations "fr"].
Proof. vm_compute. done. Qed.

(** C2 as stated fails: [loadLanguage] has no look at the cache; called for
    'ar', which is cached, it fetches 'ar' once more. *)
Lemma loadLanguage_fetches_cached :
  ¬ (∀ (net : string → response) (lang : string) (s : state),
       is_Some (translations s !! lang) →
       requests (loadLanguage net lang s) = requests s).
Proof.
  intros H. specialize (H online "ar" loaded).
  rewrite loadLanguage_requests in H.
  assert (Hc : is_Some (translations loaded !! "ar")) by (by exists arResource).
  specialize (H Hc). vm_compute in H. discriminate H.
Qed.

Lemma cached_resource_not_refetched_witness :
  (∀ net, requests (changeLanguage plainText net "ar" loaded) = requests loaded)
  ∧ ∃ extra,
      requests (foldl (click plainText) loaded [(online, "fr"); (offline, "ar"); (online, "fr")])
      = requests loaded ++ extra
      ∧ "ar" ∉ extra.
Proof.
  apply (cached_resource_not_refetched plainText loaded "ar").
  exists arResource. vm_compute. reflexivity.
Defined.

Lemma changeLanguage_idempotent_witness :
  currentLang (changeLanguage plainText online "ar" bilingual) = "ar"
  ∧ requests (changeLanguage plainText online "ar" bilingual) = requests bilingual
  ∧ console (changeLanguage plainText online "ar" bilingual) = console bilingual
  ∧ changeLanguage plainText offline "ar" (changeLanguage plainText online "ar" bilingual)
    = changeLanguage plainText online "ar" bilingual.
Proof.
  apply (changeLanguage_idempotent plainText online offline "ar" bilingual).
  exists arResource. vm_compute. reflexivity.
Defined.

Lemma updateUI_without_resource_witness :
  updateUI plainText (initial samplePage)
  = consoleError (NoTranslations "ar") (initial samplePage)
  ∧ page (updateUI plainText (initial samplePage)) = samplePage
  ∧ console (updateUI plainText (initial samplePage)) = [NoTranslations "ar"].
Proof.
  apply (updateUI_without_resource plainText (initial samplePage)).
  vm_compute. reflexivity.
Defined.

Lemma changeLanguage_direction_witness :
  let b := body (page (changeLanguage plainText online "fr" loaded)) in
  ("fr" = "ar" → getAttribute "dir" b = Some "rtl" ∧ hasClass "ltr" b = false)
  ∧ ("fr" = "fr" ∨ "fr" = "en" → getAttribute "dir" b = Some "ltr" ∧ hasClass "ltr" b = true).
Proof.
  apply (changeLanguage_direction plainText online "fr" loaded).
  vm_compute. discriminate.
Defined.

End LocalizerTheory.

(** ** Facts about the region synchronization *)
Module RegionTheory.
Import Dom DomTheory TreeTheory Actions ActionsTheory Localizer Samples.

Lemma modifyDoc_ext p g g' d :
  (∀ e kids, g e kids = g' e kids) → modifyDoc p g d = modifyDoc p g' d.
Proof.
  intros Hext. apply rootNode_inj. rewrite !rootNode_modifyDoc. by apply modifyAt_ext.
Qed.

Lemma modifyDoc_modifyDoc p g g' d :
  modifyDoc p g (modifyDoc p g' d) = modifyDoc p (after g g') d.
Proof.
  apply rootNode_inj. rewrite !rootNode_modifyDoc. apply modifyAt_modifyAt.
Qed.

Lemma modifyDoc_apart p q g g' d :
  apart p q → modifyDoc p g (modifyDoc q g' d) = modifyDoc q g' (modifyDoc p g d).
Proof.
  intros Hpq. apply rootNode_inj. rewrite !rootNode_modifyDoc. by apply modifyAt_apart.
Qed.

Lemma regionBindings_selectors :
  Forall (λ b, regionSelector (bSelector b) = true) regionBindings.
Proof. apply Forall_forall. intros b Hb. apply list_elem_of_In in Hb.
  revert b Hb. apply forallb_forall. vm_compute. reflexivity. Qed.


Section WithParser.

Variable parseHTML : string → list node.

#[local] Abbreviation write := (write parseHTML).
#[local] Abbreviation syncRegion := (syncRegion parseHTML).
#[local] Abbreviation syncRegions := (syncRegions parseHTML).
#[local] Abbreviation resolve := (resolve parseHTML).
#[local] Abbreviation markupClean := (markupClean parseHTML).
#[local] Abbreviation updateUI := (updateUI parseHTML).
#[local] Abbreviation clean := (clean parseHTML).
#[local] Abbreviation steps := (steps parseHTML).

Lemma markupClean_clean bs t b : markupClean bs t = true → b ∈ bs → clean t b.
Proof.
  unfold Localizer.markupClean, Localizer.clean. rewrite forallb_forall. intros Hall Hb.
  specialize (Hall b (proj1 (list_elem_of_In _ _) Hb)).
  by destruct (bType b), (t !! bKey b).
Qed.

Lemma write_tidy type c :
  (type = HtmlMode → forallb bindableFree (parseHTML c) = true) → tidy (write type c).
Proof.
  intros Hc e kids Hkids. destruct type; cbn.
  - repeat split. by case_decide.
  - repeat split. by apply Hc.
  - done.
Qed.

(** Two writes to one element: the later one wins, or they touch different
    things. *)
Lemma write_write type c type' c' :
  ((∀ e kids, after (write type c) (write type' c') e kids = write type c e kids)
   ∧ (∀ e kids, after (write type' c') (write type c) e kids = write type' c' e kids))
  ∨ (∀ e kids, after (write type c) (write type' c') e kids
               = after (write type' c') (write type c) e kids).
Proof. destruct type, type'; cbn; auto. Qed.

Lemma syncRegion_perform t d b : syncRegion t d b = perform (resolve t d b) d.
Proof.
  unfold Localizer.syncRegion, updateElement, Localizer.resolve, perform.
  destruct (querySelector (bSelector b) d) as [p|]; [|done].
  destruct (t !! bKey b) as [c|]; [|done]. by destruct (truthy (Some c)).
Qed.


Lemma resolve_alike t d d0 b :
  alike d d0 → regionSelector (bSelector b) = true → resolve t d b = resolve t d0 b.
Proof. intros [_ Hq] Hsel. unfold Localizer.resolve. by rewrite Hq. Qed.

Lemma resolve_region t d b p g :
  separated (rootNode d) = true → regionSelector (bSelector b) = true → clean t b →
  resolve t d b = Some (p, g) →
  regionAt p (rootNode d) ∧ tidy g ∧ ∃ c, g = write (bType b) c ∧ t !! bKey b = Some c
                                         ∧ truthy (Some c) = true
                                         ∧ querySelector (bSelector b) d = Some p.
Proof.
  intros Hsep Hsel Hclean. unfold Localizer.resolve.
  destruct (querySelector (bSelector b) d) as [q|] eqn:Hq; [|done].
  destruct (t !! bKey b) as [c|] eqn:Hc; [|done].
  destruct (truthy (Some c)) eqn:Ht; [|done]. intros [= <- <-]. split; [|split].
  - by eapply qsNode_regionAt.
  - apply write_tidy. intros Hty. unfold Localizer.clean in Hclean. by rewrite Hty, Hc in Hclean.
  - by exists c.
Qed.

Lemma perform_alike t d d0 b :
  alike d d0 → regionSelector (bSelector b) = true → clean t b →
  alike (perform (resolve t d b) d) d0.
Proof.
  intros [Hsep Hq] Hsel Hclean.
  destruct (resolve t d b) as [[p g]|] eqn:Hr; [|done]. cbn.
  destruct (resolve_region _ _ _ _ _ Hsep Hsel Hclean Hr) as (Hreg & Hg & _). split.
  - rewrite rootNode_modifyDoc. by apply separated_modifyAt.
  - intros sel' Hsel'. rewrite <- Hq by done. unfold querySelector.
    rewrite rootNode_modifyDoc. by apply qsNode_modifyAt.
Qed.

Lemma syncRegions_run bs t d d0 :
  Forall (λ b, regionSelector (bSelector b) = true) bs →
  markupClean bs t = true →
  alike d d0 →
  syncRegions bs t d = run (steps t d0 bs) d ∧ alike (syncRegions bs t d) d0.
Proof.
  intros Hsel Hclean. revert d.
  induction Hsel as [|b bs Hb Hbs IH]; intros d Hd; [done|].
  cbn in Hclean. apply andb_true_iff in Hclean as [Hcb Hcbs].
  assert (Hcl : clean t b).
  { unfold Localizer.clean. by destruct (bType b), (t !! bKey b). }
  unfold Localizer.syncRegions. cbn [foldl]. unfold Localizer.steps. cbn [map]. rewrite run_cons.
  rewrite syncRegion_perform.
  assert (Hd1 : alike (perform (resolve t d b) d) d0) by (by apply perform_alike).
  rewrite (resolve_alike t d d0 b Hd Hb) in *.
  apply (IH Hcbs _ Hd1).
Qed.

Lemma steps_compatible t d0 bs a a' :
  Forall (λ b, regionSelector (bSelector b) = true) bs →
  markupClean bs t = true →
  separated (rootNode d0) = true →
  a ∈ steps t d0 bs → a' ∈ steps t d0 bs →
  absorbs a a ∧ compatible a a'.
Proof.
  intros Hsel Hclean Hsep Ha Ha'. unfold Localizer.steps in Ha, Ha'.
  apply list_elem_of_fmap in Ha as (b & -> & Hb).
  apply list_elem_of_fmap in Ha' as (b' & -> & Hb').
  rewrite Forall_forall in Hsel.
  pose proof (markupClean_clean _ _ _ Hclean Hb) as Hcb.
  pose proof (markupClean_clean _ _ _ Hclean Hb') as Hcb'.
  destruct (resolve t d0 b) as [[p g]|] eqn:Hr; cbn; [|split; [done|by right]].
  destruct (resolve_region _ _ _ _ _ Hsep (Hsel b Hb) Hcb Hr) as (Hreg & _ & c & -> & _).
  split.
  - intros x. cbn. rewrite modifyDoc_modifyDoc. apply modifyDoc_ext.
    intros e kids. by destruct (bType b).
  - destruct (resolve t d0 b') as [[q g']|] eqn:Hr'; cbn; [|by right].
    destruct (resolve_region _ _ _ _ _ Hsep (Hsel b' Hb') Hcb' Hr') as (Hreg' & _ & c' & -> & _).
    destruct (regionAt_apart _ _ _ Hreg Hreg') as [<-|Hapart].
    + destruct (write_write (bType b) c (bType b') c') as [[H1 H2]|Hcomm].
      * left. split; intros x; cbn; rewrite modifyDoc_modifyDoc; by apply modifyDoc_ext.
      * right. intros x. cbn. rewrite !modifyDoc_modifyDoc. by apply modifyDoc_ext.
    + right. intros x. cbn. by apply modifyDoc_apart.
Qed.

(** On a page without nested regions, for a resource whose markup brings
    none, a second pass of the bindings changes nothing. *)
Lemma syncRegions_idempotent bs t d :
  Forall (λ b, regionSelector (bSelector b) = true) bs →
  markupClean bs t = true →
  separated (rootNode d) = true →
  syncRegions bs t (syncRegions bs t d) = syncRegions bs t d.
Proof.
  intros Hsel Hclean Hsep.
  assert (Hd : alike d d) by done.
  destruct (syncRegions_run bs t d d Hsel Hclean Hd) as [Hrun Hd'].
  destruct (syncRegions_run bs t _ d Hsel Hclean Hd') as [Hrun' _].
  rewrite Hrun', Hrun. apply run_idempotent.
  - intros a Ha. by apply (steps_compatible t d bs a a).
  - intros a a' Ha Ha'. by apply (steps_compatible t d bs a a').
Qed.






Lemma updateUI_with_resource (s : state) (t : gmap string string) :
  translations s !! currentLang s = Some t →
  updateUI s = setPage (syncRegions regionBindings t (page s)) s.
Proof. intros Ht. unfold Localizer.updateUI. by rewrite Ht. Qed.

(** C5, as far as it holds: on a page whose regions are not nested, for a
    current resource whose markup values bring no element that a binding
    selects, [updateUI] twice in a row leaves the state that [updateUI]
    once leaves. *)
Theorem updateUI_idempotent (s : state) (t : gmap string string) :
  translations s !! currentLang s = Some t →
  separated (rootNode (page s)) = true →
  markupClean regionBindings t = true →
  updateUI (updateUI s) = updateUI s.
Proof.
  intros Ht Hsep Hclean. rewrite (updateUI_with_resource s t Ht).
  rewrite (updateUI_with_resource (setPage _ s) t Ht). unfold setPage.
  cbn [currentLang translations page console requests]. f_equal.
  apply syncRegions_idempotent; [apply regionBindings_selectors|done|done].
Qed.


End WithParser.

(** The two passes over the nested page: the first writes to the inner
    'home' and then replaces it with the text of 'features'; the second
    finds the other 'home'. *)
Example nested_passes :
  page (updateUI plainText nestedState)
  = Document (el [] [])
      [ Elem (el [("data-key", "features")] []) [Text "Features"];
        Elem (el [("data-key", "home")] []) [Text "y"] ]
  ∧ page (updateUI plainText (updateUI plainText nestedState))
    = Document (el [] [])
        [ Elem (el [("data-key", "features")] []) [Text "Features"];
          Elem (el [("data-key", "home")] []) [Text "Home"] ].
Proof. vm_compute. done. Qed.

(** C5 as stated fails: on the nested page the second pass changes the
    document that the first pass left. *)
Lemma updateUI_twice_differs :
  ¬ (∀ (parseHTML : string → list node) (s : state) (t : gmap string string),
       translations s !! currentLang s = Some t →
       page (updateUI parseHTML (updateUI parseHTML s)) = page (updateUI parseHTML s)).
Proof.
  intros H. specialize (H plainText nestedState navResource eq_refl).
  vm_compute in H. discriminate H.
Qed.


Lemma updateUI_idempotent_witness :
  updateUI plainText (updateUI plainText loaded) = updateUI plainText loaded.
Proof.
  apply (updateUI_idempotent plainText loaded arResource).
  - vm_compute. reflexivity.
  - vm_compute. reflexivity.
  - vm_compute. reflexivity.
Defined.


(** The scenario of the specification: the hero title is written as
    markup; a pass with an empty resource leaves it on the page. *)
Example welcome_scenario :
  let s1 := updateUI plainText welcomeState in
  let s2 := updateUI plainText (setCurrentLang "xx" s1) in
  elemAt [2]%nat (rootNode (page s1))
  = Some (el [("data-key", "hero_title")] [], [Text "Welcome"])
  ∧ elemAt [3]%nat (rootNode (page s1))
    = Some (el [("data-key", "home")] [], [Text "..."])
  ∧ page s2 = page s1.
Proof. vm_compute. done. Qed.

End RegionTheory.

(** ** Facts about the testimonial slider *)
Module SliderTheory.
Import Dom DomTheory Slider Samples.

#[local] Open Scope Z_scope.

Lemma showSlide_slides_length index s :
  length (slides (showSlide index s).1) = length (slides s).
Proof.
  unfold showSlide. destruct index as [z|]; [|cbn; by rewrite length_map].
  destruct (item (Num z) _); cbn; by rewrite ?length_alter, length_map.
Qed.

Lemma after_slides_length ev s : length (slides (after ev s)) = length (slides s).
Proof. unfold after, handle. destruct ev; apply showSlide_slides_length. Qed.

(** [showSlide] for an index of [slides]: no exception, the index becomes
    current and its slide is the only active one. *)
Lemma showSlide_inRange (z : Z) (s : slider) :
  0 ≤ z < Z.of_nat (length (slides s)) →
  showSlide (Num z) s =
    (Slider (alter (classAdd "active") (Z.to_nat z) (map (classRemove "active") (slides s)))
            (Num z), Normal).
Proof.
  intros Hz. unfold showSlide, item. rewrite decide_True by lia.
  destruct (map _ (slides s) !! Z.to_nat z) eqn:Hlook; [done|].
  apply lookup_ge_None in Hlook. rewrite length_map in Hlook. lia.
Qed.

Lemma isActive_shown (l : list props) (k j : nat) :
  (k < length l)%nat →
  isActive (Slider (alter (classAdd "active") k (map (classRemove "active") l)) (Num (Z.of_nat k))) j
  = bool_decide (j = k ∧ (j < length l)%nat).
Proof.
  intros Hk. unfold isActive. cbn [slides].
  destruct (decide (j = k)) as [->|Hne].
  - rewrite list_lookup_alter_eq, list_lookup_fmap.
    destruct (lookup_lt_is_Some_2 l k Hk) as [e ->]. cbn.
    rewrite hasClass_classAdd_eq. symmetry. by apply bool_decide_eq_true.
  - rewrite list_lookup_alter_ne by done. rewrite list_lookup_fmap.
    destruct (l !! j) as [e|]; cbn.
    + rewrite hasClass_classRemove_eq. symmetry. apply bool_decide_eq_false. tauto.
    + symmetry. apply bool_decide_eq_false. tauto.
Qed.

Lemma filter_seq_none (P : nat → Prop) `{!∀ j, Decision (P j)} (a n : nat) :
  (∀ j, (a ≤ j < a + n)%nat → ¬ P j) → filter P (seq a n) = [].
Proof.
  revert a. induction n as [|n IH]; intros a Hnone; [done|].
  cbn [seq]. rewrite filter_cons_False by (apply Hnone; lia).
  apply IH. intros j Hj. apply Hnone. lia.
Qed.

Lemma filter_seq_only (P : nat → Prop) `{!∀ j, Decision (P j)} (k a n : nat) :
  (a ≤ k < a + n)%nat →
  (∀ j, (a ≤ j < a + n)%nat → P j ↔ j = k) →
  filter P (seq a n) = [k].
Proof.
  revert a. induction n as [|n IH]; intros a Hk HP; [lia|].
  cbn [seq]. destruct (decide (a = k)) as [->|Hne].
  - rewrite filter_cons_True by (apply HP; lia). f_equal.
    apply filter_seq_none. intros j Hj Hp. apply HP in Hp; lia.
  - rewrite filter_cons_False by (rewrite HP by lia; done).
    apply IH; [lia|]. intros j Hj. apply HP. lia.
Qed.

Lemma activeSlides_shown (l : list props) (z : Z) :
  0 ≤ z < Z.of_nat (length l) →
  activeSlides (showSlide (Num z) (Slider l (Num 0))).1 = [Z.to_nat z]
  ∧ ∀ c, activeSlides (showSlide (Num z) (Slider l c)).1 = [Z.to_nat z].
Proof.
  intros Hz.
  assert (Hall : ∀ c, activeSlides (showSlide (Num z) (Slider l c)).1 = [Z.to_nat z]).
  { intros c. rewrite showSlide_inRange by (cbn; lia). cbn [fst slides].
    unfold activeSlides. cbn [slides]. rewrite length_alter, length_map.
    apply filter_seq_only; [lia|]. intros j Hj.
    replace (Num z) with (Num (Z.of_nat (Z.to_nat z))) by (f_equal; lia).
    rewrite isActive_shown by lia. rewrite bool_decide_eq_true. intuition lia. }
  split; [apply Hall|apply Hall].
Qed.

(** One step forward from a state in range. *)
Lemma next_inRange (s : slider) (i : Z) :
  inRange s i →
  handle NextClick s = showSlide (Num ((i + 1) mod Z.of_nat (length (slides s)))) s
  ∧ (handle NextClick s).2 = Normal
  ∧ inRange (after NextClick s) ((i + 1) mod Z.of_nat (length (slides s)))
  ∧ activeSlides (after NextClick s) = [Z.to_nat ((i + 1) mod Z.of_nat (length (slides s)))].
Proof.
  intros [Hcur Hi]. set (n := Z.of_nat (length (slides s))) in *.
  assert (Hidx : nextIndex s = Num ((i + 1) mod n)).
  { unfold nextIndex, slideCount. rewrite Hcur. cbn. fold n.
    rewrite decide_False by lia. f_equal. apply Z.rem_mod_nonneg; lia. }
  assert (Hm : 0 ≤ (i + 1) mod n < n) by (apply Z.mod_pos_bound; lia).
  unfold after. cbn [handle]. rewrite Hidx. split; [done|].
  rewrite showSlide_inRange by (fold n; lia). cbn [fst snd]. split; [done|]. split.
  - split; [done|]. cbn [slides]. rewrite length_alter, length_map. by fold n.
  - destruct s as [l c]. cbn [slides] in *.
    pose proof (activeSlides_shown l ((i + 1) mod n) Hm) as [_ Hall].
    specialize (Hall c). by rewrite showSlide_inRange in Hall by (cbn; lia).
Qed.

(** One step back from a state in range. *)
Lemma prev_inRange (s : slider) (i : Z) :
  inRange s i →
  (handle PrevClick s).2 = Normal
  ∧ inRange (after PrevClick s) ((i - 1) mod Z.of_nat (length (slides s)))
  ∧ activeSlides (after PrevClick s) = [Z.to_nat ((i - 1) mod Z.of_nat (length (slides s)))].
Proof.
  intros [Hcur Hi]. set (n := Z.of_nat (length (slides s))) in *.
  assert (Hidx : prevIndex s = Num ((i - 1) mod n)).
  { unfold prevIndex, slideCount. rewrite Hcur. cbn. fold n.
    rewrite decide_False by lia. f_equal.
    rewrite Z.rem_mod_nonneg by lia.
    replace (i - 1 + n) with (i - 1 + 1 * n) by lia. apply Z.mod_add. lia. }
  assert (Hm : 0 ≤ (i - 1) mod n < n) by (apply Z.mod_pos_bound; lia).
  unfold after. cbn [handle]. rewrite Hidx.
  rewrite showSlide_inRange by (fold n; lia). cbn [fst snd]. split; [done|]. split.
  - split; [done|]. cbn [slides]. rewrite length_alter, length_map. by fold n.
  - destruct s as [l c]. cbn [slides] in *.
    pose proof (activeSlides_shown l ((i - 1) mod n) Hm) as [_ Hall].
    specialize (Hall c). by rewrite showSlide_inRange in Hall by (cbn; lia).
Qed.

Lemma iter_next_inRange (k : nat) (s : slider) (i : Z) :
  inRange s i →
  inRange (Nat.iter k (after NextClick) s) ((i + Z.of_nat k) mod Z.of_nat (length (slides s)))
  ∧ length (slides (Nat.iter k (after NextClick) s)) = length (slides s).
Proof.
  intros Hs. induction k as [|k [IHr IHl]].
  - cbn. rewrite Z.add_0_r. destruct Hs as [Hcur Hi].
    rewrite Z.mod_small by lia. done.
  - rewrite Nat.iter_succ. split; [|by rewrite after_slides_length].
    destruct (next_inRange _ _ IHr) as (_ & _ & Hr & _).
    rewrite IHl in Hr. rewrite Zplus_mod_idemp_l in Hr.
    by replace (i + Z.of_nat (S k)) with (i + Z.of_nat k + 1) by lia.
Qed.

Lemma cycle_forward (l : list props) (i : Z) (m : nat) :
  m = length l →
  (1 ≤ m)%nat →
  0 ≤ i < Z.of_nat (length l) →
  currentSlide (Nat.iter m (after NextClick) (Slider l (Num i))) = Num i
  ∧ activeSlides (Nat.iter m (after NextClick) (Slider l (Num i))) = [Z.to_nat i].
Proof.
  intros Hlen Hm Hi. destruct m as [|k]; [lia|]. rewrite Nat.iter_succ.
  assert (Hs : inRange (Slider l (Num i)) i) by done.
  destruct (iter_next_inRange k _ i Hs) as [Hr Hl]. cbn [slides] in Hr, Hl.
  destruct (next_inRange _ _ Hr) as (_ & _ & [Hcur _] & Hact).
  rewrite Hl in Hcur, Hact. rewrite Zplus_mod_idemp_l in Hcur, Hact.
  assert (Hback : (i + Z.of_nat k + 1) mod Z.of_nat (length l) = i).
  { replace (i + Z.of_nat k + 1) with (i + 1 * Z.of_nat (length l)) by lia.
    rewrite Z.mod_add by lia. apply Z.mod_small. lia. }
  rewrite Hback in Hcur, Hact. done.
Qed.

(** C8: with at least one slide and the current index [i] in range, [count]
    steps forward lead back to [i], and one step forward followed by one
    step back leads back to [i]; in both cases slide [i] is the one active
    slide. *)
Theorem next_prev_cycle (l : list props) (i : Z) :
  (1 ≤ length l)%nat →
  0 ≤ i < Z.of_nat (length l) →
  let s := Slider l (Num i) in
  (currentSlide (Nat.iter (length l) (after NextClick) s) = Num i
   ∧ activeSlides (Nat.iter (length l) (after NextClick) s) = [Z.to_nat i])
  ∧ (currentSlide (after PrevClick (after NextClick s)) = Num i
     ∧ activeSlides (after PrevClick (after NextClick s)) = [Z.to_nat i]).
Proof.
  intros Hn Hi s. set (n := Z.of_nat (length l)).
  assert (Hs : inRange s i) by done.
  split.
  - by apply cycle_forward.
  - destruct (next_inRange s i Hs) as (_ & _ & Hr & _).
    destruct (prev_inRange _ _ Hr) as (_ & [Hcur _] & Hact).
    rewrite after_slides_length in Hcur, Hact. subst s. cbn [slides] in Hcur, Hact.
    assert (Hback : ((i + 1) mod Z.of_nat (length l) - 1) mod Z.of_nat (length l) = i).
    { rewrite Zminus_mod_idemp_l. replace (i + 1 - 1) with i by lia.
      apply Z.mod_small. lia. }
    rewrite Hback in Hcur, Hact. done.
Qed.

Lemma reachable_slides_length l s : reachable l s → length (slides s) = length l.
Proof.
  induction 1 as [|ev s _ IH]; [done|]. by rewrite after_slides_length.
Qed.

Lemma reachable_inRange l s :
  (1 ≤ length l)%nat → reachable l s → ∃ i, inRange s i.
Proof.
  intros Hn. induction 1 as [|ev s Hs [i IH]].
  - exists 0. split; [done|]. cbn. lia.
  - destruct ev.
    + eexists. by apply (next_inRange s i).
    + eexists. by apply (prev_inRange s i).
    + eexists. by apply (next_inRange s i).
Qed.

Lemma reachable_without_slides s : reachable [] s → s = initTestimonialSlider [].
Proof.
  induction 1 as [|ev s _ ->]; [done|]. by destruct ev.
Qed.

(** C10: without slides the step of the interval timer computes [NaN] for
    the next index, finds no slide at it and throws; with at least one
    slide every step from every reachable state ends normally and leaves
    the current index in [0, count). *)
Theorem autoAdvance_safety (l : list props) (s : slider) :
  reachable l s →
  (length l = 0%nat →
     nextIndex s = NaN
     ∧ item (nextIndex s) (slides s) = None
     ∧ handle AutoAdvance s = (s, ThrowTypeError))
  ∧ ((1 ≤ length l)%nat →
     ∀ ev, (handle ev s).2 = Normal
           ∧ ∃ i, currentSlide (after ev s) = Num i ∧ 0 ≤ i < Z.of_nat (length l)).
Proof.
  intros Hs. split.
  - intros Hlen. destruct l; [|done].
    by rewrite (reachable_without_slides s Hs).
  - intros Hn ev. destruct (reachable_inRange l s Hn Hs) as [i Hi].
    pose proof (reachable_slides_length l s Hs) as Hlen.
    destruct ev.
    + destruct (next_inRange s i Hi) as (_ & Hc & [Hcur Hr] & _).
      split; [done|]. eexists. split; [done|].
      rewrite after_slides_length, Hlen in Hr. by rewrite Hlen.
    + destruct (prev_inRange s i Hi) as (Hc & [Hcur Hr] & _).
      split; [done|]. eexists. split; [done|].
      rewrite after_slides_length, Hlen in Hr. by rewrite Hlen.
    + destruct (next_inRange s i Hi) as (_ & Hc & [Hcur Hr] & _).
      split; [done|]. eexists. split; [done|].
      rewrite after_slides_length, Hlen in Hr. by rewrite Hlen.
Qed.

Lemma next_prev_cycle_witness :
  let s := Slider threeSlides (Num 2) in
  (currentSlide (Nat.iter 3 (after NextClick) s) = Num 2
   ∧ activeSlides (Nat.iter 3 (after NextClick) s) = [2%nat])
  ∧ (currentSlide (after PrevClick (after NextClick s)) = Num 2
     ∧ activeSlides (after PrevClick (after NextClick s)) = [2%nat]).
Proof.
  apply (next_prev_cycle threeSlides 2); cbn; lia.
Defined.

Lemma autoAdvance_safety_witness :
  (nextIndex (initTestimonialSlider []) = NaN
   ∧ item (nextIndex (initTestimonialSlider [])) [] = None
   ∧ handle AutoAdvance (initTestimonialSlider [])
     = (initTestimonialSlider [], ThrowTypeError))
  ∧ ∀ ev, (handle ev (after PrevClick (initTestimonialSlider threeSlides))).2 = Normal
          ∧ ∃ i, currentSlide (after ev (after PrevClick (initTestimonialSlider threeSlides)))
                 = Num i ∧ 0 ≤ i < 3.
Proof.
  split.
  - apply (autoAdvance_safety [] (initTestimonialSlider [])); [constructor|reflexivity].
  - apply (autoAdvance_safety threeSlides (after PrevClick (initTestimonialSlider threeSlides)));
      [repeat constructor|cbn; lia].
Defined.

End SliderTheory.

(** ** More facts about the tree: what a selector found stays found *)
Module TreeMore.
Import Dom DomMore DomTheory TreeTheory.

Lemma scan_index f j pos l k p :
  scan f j pos l = Some (k :: p) → (j ≤ k)%nat.
Proof.
  intros Hs. destruct (scan_Some _ _ _ _ _ Hs) as (i & c & m & p' & [= -> ->] & _). lia.
Qed.

(** The hit of a scan stays the hit when the node that was hit is replaced
    by one that gives the same answer. *)
Lemma scan_alter_hit f h j pos l k p :
  scan f j pos l = Some (k :: p) →
  (∀ c m, l !! (k - j)%nat = Some c → f m c = Some p → f m (h c) = Some p) →
  scan f j pos (alter h (k - j)%nat l) = Some (k :: p).
Proof.
  revert j pos. induction l as [|c r IH]; intros j pos; [done|]. cbn.
  destruct (f (S pos) c) as [q|] eqn:Hc.
  - intros [= -> ->] Hh. rewrite Nat.sub_diag in *. cbn.
    by rewrite (Hh c (S pos) eq_refl Hc).
  - intros Hr Hh. pose proof (scan_index _ _ _ _ _ _ Hr) as Hle.
    replace (k - j)%nat with (S (k - S j)) in * by lia. cbn. rewrite Hc.
    apply IH; [done|]. intros c' m Hc' Hf. by apply (Hh c' m).
Qed.

(** An update of the element a selector found, which keeps the element
    matching, leaves it the first match. *)
Lemma qsNode_modifyAt_hit sel g n :
  (∀ e kids under, matches sel under (g e kids).1 = matches sel under e) →
  ∀ p under pos, qsNode sel under pos n = Some p →
                 qsNode sel under pos (modifyAt p g n) = Some p.
Proof.
  intros Hg p. revert n. induction p as [|i p IH]; intros [s|e kids] under pos; try done.
  - cbn. specialize (Hg e kids under). destruct (g e kids) as [e' kids']. cbn in *.
    rewrite Hg. destruct (matches sel under e); [done|].
    intros Hs. by destruct (scan_Some _ _ _ _ _ Hs) as (? & ? & ? & ? & ? & _).
  - cbn. destruct (matches sel under e); [done|]. intros Hs.
    pose proof (scan_alter_hit _ (modifyAt p g) _ _ _ _ _ Hs) as Hhit.
    rewrite Nat.sub_0_r in Hhit. apply Hhit. intros c m _. apply IH.
Qed.

Lemma querySelector_modifyDoc_hit sel g d p :
  (∀ e kids under, matches sel under (g e kids).1 = matches sel under e) →
  querySelector sel d = Some p → querySelector sel (modifyDoc p g d) = Some p.
Proof.
  intros Hg Hq. unfold querySelector. rewrite rootNode_modifyDoc.
  by apply qsNode_modifyAt_hit.
Qed.

(** What a selector finds is an element, and it matches. *)
Lemma qsNode_elemAt sel n :
  ∀ p under pos, qsNode sel under pos n = Some p →
    ∃ e kids under', elemAt p n = Some (e, kids) ∧ matches sel under' e = true.
Proof.
  induction n as [s|e kids IH] using node_ind; [done|]. intros p under pos. cbn.
  destruct (matches sel under e) eqn:Hm.
  - intros [= <-]. by exists e, kids, under.
  - intros Hs. destruct (scan_Some _ _ _ _ _ Hs) as (i & c & m & p' & -> & Hi & Hq).
    rewrite Forall_forall in IH.
    destruct (IH c (list_elem_of_lookup_2 _ _ _ Hi) _ _ _ Hq) as (e' & k' & u & Hat & Hm').
    exists e', k', u. cbn. by rewrite Hi.
Qed.

(** *** Checks of every element *)

Lemma everyElem_elemAt P n p e kids :
  everyElem P n = true → elemAt p n = Some (e, kids) → P e = true.
Proof.
  revert n. induction p as [|i p IH]; intros [s|e' kids'] Hall; cbn; try done.
  - intros [= -> ->]. cbn in Hall. by apply andb_true_iff in Hall as [? _].
  - destruct (kids' !! i) as [c|] eqn:Hc; cbn; [|done]. apply IH.
    cbn in Hall. apply andb_true_iff in Hall as [_ Hkids].
    rewrite forallb_forall in Hkids. apply Hkids.
    apply list_elem_of_In. by eapply list_elem_of_lookup_2.
Qed.

Lemma everyElem_forEachNode P c f n :
  (∀ e, P (if hasClass c e then f e else e) = true) →
  everyElem P (forEachNode c f n) = true.
Proof.
  intros Hf. induction n as [s|e kids IH] using node_ind; [done|].
  cbn. rewrite Hf. cbn. apply forallb_forall. intros x Hx.
  apply in_map_iff in Hx as (y & <- & Hy). rewrite Forall_forall in IH.
  apply IH. by apply list_elem_of_In.
Qed.

Lemma everyElem_modifyAt P p g n :
  everyElem P n = true →
  (∀ e kids, elemAt p n = Some (e, kids) → forallb (everyElem P) kids = true →
             P (g e kids).1 = true ∧ forallb (everyElem P) (g e kids).2 = true) →
  everyElem P (modifyAt p g n) = true.
Proof.
  revert n. induction p as [|i p IH]; intros [s|e kids] Hall Hg; try done.
  - cbn in *. apply andb_true_iff in Hall as [He Hkids].
    destruct (Hg e kids eq_refl Hkids) as [He' Hk'].
    destruct (g e kids) as [e' kids']. cbn in *. by rewrite He', Hk'.
  - cbn in *. apply andb_true_iff in Hall as [He Hkids]. rewrite He. cbn.
    apply forallb_alter; [done|]. intros c Hc. apply IH.
    + rewrite forallb_forall in Hkids. apply Hkids.
      apply list_elem_of_In. by eapply list_elem_of_lookup_2.
    + intros e' k' Hat. apply Hg. by rewrite Hc.
Qed.

Lemma rootNode_forEachByClass c f d :
  rootNode (forEachByClass c f d) = forEachNode c f (rootNode d).
Proof. done. Qed.

(** *** Updates of the properties of one element *)

Lemma map_alter_same {A B} (tc : A → B) (h : A → A) i l :
  (∀ c, l !! i = Some c → tc (h c) = tc c) → map tc (alter h i l) = map tc l.
Proof.
  revert i. induction l as [|c r IH]; intros i Hh; [done|].
  destruct i as [|i]; cbn.
  - by rewrite (Hh c eq_refl).
  - f_equal. apply IH. intros c' Hc'. by apply Hh.
Qed.

Lemma textContent_modifyAt_onProps q f n :
  textContent (modifyAt q (onProps f) n) = textContent n.
Proof.
  revert n. induction q as [|j q IH]; intros [s|e kids]; cbn; try done.
  f_equal. apply map_alter_same. intros c _. apply IH.
Qed.

(** A change of the properties of an element changes no text. *)
Lemma textAt_modifyAt_onProps p q f n :
  textAt p (modifyAt q (onProps f) n) = textAt p n.
Proof.
  unfold textAt. revert q n. induction p as [|i p IH]; intros q [s|e kids].
  - by destruct q.
  - destruct q as [|j q]; cbn; [done|]. do 2 f_equal.
    apply map_alter_same. intros c _. apply textContent_modifyAt_onProps.
  - by destruct q.
  - destruct q as [|j q]; cbn; [done|].
    destruct (decide (i = j)) as [->|Hne].
    + rewrite list_lookup_alter_eq. destruct (kids !! j) as [c|]; cbn; [apply IH|done].
    + by rewrite list_lookup_alter_ne.
Qed.

(** A change of properties that the selector does not look at does not
    change what the selector finds. *)
Lemma qsNode_modifyAt_onProps sel q f n :
  (∀ e under, matches sel under (f e) = matches sel under e) →
  (∀ e pos, anchor sel pos (f e) = anchor sel pos e) →
  ∀ under pos, qsNode sel under pos (modifyAt q (onProps f) n) = qsNode sel under pos n.
Proof.
  intros Hm Ha. revert n. induction q as [|j q IH]; intros [s|e kids] under pos; try done.
  - cbn. by rewrite Hm, Ha.
  - cbn. destruct (matches sel under e); [done|].
    apply scan_alter. intros c _. split; [intros k; apply IH|apply isElem_modifyAt].
Qed.

(** *** A text written to another element *)

Lemma apart_sym p q : apart p q → apart q p.
Proof. intros [Hpq Hqp]. by split. Qed.

Lemma scan_alter_none f h j pos l i :
  scan f j pos l = None →
  (∀ c m, l !! i = Some c →
     isElem (h c) = isElem c ∧ (f m c = None → f m (h c) = None)) →
  scan f j pos (alter h i l) = None.
Proof.
  revert i j pos. induction l as [|c r IH]; intros i j pos Hs Hh; [done|].
  destruct i as [|i]; cbn in *.
  - destruct (Hh c (S pos) eq_refl) as [He Hn].
    destruct (f (S pos) c) eqn:Hc; [done|]. by rewrite (Hn eq_refl), He.
  - destruct (f (S pos) c); [done|]. apply IH; [done|].
    intros c' m Hc'. by apply Hh.
Qed.

Lemma scan_alter_elsewhere f h j pos l k p i :
  scan f j pos l = Some (k :: p) →
  (∀ c m, l !! i = Some c →
     isElem (h c) = isElem c
     ∧ (f m c = None → f m (h c) = None)
     ∧ ((j + i)%nat = k → f m c = Some p → f m (h c) = Some p)) →
  scan f j pos (alter h i l) = Some (k :: p).
Proof.
  revert i j pos. induction l as [|c r IH]; intros i j pos Hs Hh; [done|].
  destruct i as [|i]; cbn in *.
  - destruct (Hh c (S pos) eq_refl) as (He & Hn & Hhit).
    destruct (f (S pos) c) as [q|] eqn:Hc.
    + injection Hs as -> ->. rewrite Hhit; [done|lia|done].
    + by rewrite (Hn eq_refl), He.
  - destruct (f (S pos) c); [done|]. apply IH; [done|].
    intros c' m Hc'. destruct (Hh c' m Hc') as (He & Hn & Hhit).
    split; [done|]. split; [done|]. intros Heq. apply Hhit. lia.
Qed.

(** Where a selector finds nothing, it finds nothing after a text was
    written to an element. *)
Lemma qsNode_write_none sel s q :
  ∀ n under pos, qsNode sel under pos n = None →
                 qsNode sel under pos (modifyAt q (setTextContent s) n) = None.
Proof.
  induction q as [|i q IH]; intros [t|e kids] under pos; try done; cbn.
  - destruct (matches sel under e); [done|]. intros _. by destruct (decide (s = "")).
  - destruct (matches sel under e); [done|]. intros Hs.
    apply scan_alter_none; [done|]. intros c m _.
    split; [apply isElem_modifyAt|apply IH].
Qed.

(** What a selector finds, it finds after a text was written to an element
    apart from it. *)
Lemma qsNode_write_apart sel s :
  ∀ p q n under pos, qsNode sel under pos n = Some p → apart p q →
                     qsNode sel under pos (modifyAt q (setTextContent s) n) = Some p.
Proof.
  induction p as [|i p IH]; intros q n under pos Hq [Hpq Hqp].
  - destruct Hpq. apply prefix_nil.
  - destruct q as [|j q]; [destruct Hqp; apply prefix_nil|].
    destruct n as [t|e kids]; [done|]. cbn in *.
    destruct (matches sel under e); [done|].
    apply scan_alter_elsewhere; [done|]. intros c m _.
    split; [apply isElem_modifyAt|]. split; [apply qsNode_write_none|].
    cbn. intros <- Hf. apply IH; [done|].
    split; intros Hpre; [apply Hpq|apply Hqp]; by apply prefix_cons.
Qed.

Lemma querySelector_write sel s d p q :
  querySelector sel d = Some p → p = q ∨ apart p q →
  querySelector sel (modifyDoc q (setTextContent s) d) = Some p.
Proof.
  intros Hq [<-|Hap].
  - by apply querySelector_modifyDoc_hit.
  - unfold querySelector. rewrite rootNode_modifyDoc. by apply qsNode_write_apart.
Qed.

Lemma textAt_write p s n :
  is_Some (elemAt p n) → textAt p (modifyAt p (setTextContent s) n) = Some s.
Proof.
  intros [[e kids] Hat]. unfold textAt. rewrite elemAt_modifyAt_eq, Hat. cbn.
  by destruct (decide (s = "")) as [->|].
Qed.

Lemma textAt_write_apart p q s n :
  apart p q → textAt p (modifyAt q (setTextContent s) n) = textAt p n.
Proof. intros Hap. unfold textAt. by rewrite elemAt_modifyAt_apart. Qed.

End TreeMore.

(** ** More facts about the localizer *)
Module LocalizerMore.
Import Dom DomMore DomTheory TreeTheory TreeMore Localizer LanguageMenu Samples MoreSamples LocalizerTheory RegionTheory.

Section WithParser.

Variable parseHTML : string → list node.

#[local] Abbreviation write := (write parseHTML).
#[local] Abbreviation updateElement := (updateElement parseHTML).
#[local] Abbreviation syncRegion := (syncRegion parseHTML).
#[local] Abbreviation syncRegions := (syncRegions parseHTML).
#[local] Abbreviation updateUI := (updateUI parseHTML).
#[local] Abbreviation changeLanguage := (changeLanguage parseHTML).
#[local] Abbreviation click := (click parseHTML).
#[local] Abbreviation init := (init parseHTML).

Lemma write_look type c e kids :
  attributes (write type c e kids).1 = attributes e
  ∧ classList (write type c e kids).1 = classList e.
Proof. by destruct type. Qed.

Lemma write_matches type c sel e kids under :
  matches sel under (write type c e kids).1 = matches sel under e.
Proof. destruct (write_look type c e kids) as [Ha Hc]. by apply matches_look. Qed.

Lemma write_twice type c e kids :
  after (write type c) (write type c) e kids = write type c e kids.
Proof. by destruct type. Qed.

(** X1: [updateElement] twice is [updateElement] once, on every document, for
    every selector, value and mode. *)
Theorem updateElement_idempotent (sel : selector) (content : option string)
    (type : updateType) (d : document) :
  updateElement sel content type (updateElement sel content type d)
  = updateElement sel content type d.
Proof.
  unfold Localizer.updateElement at 2 3.
  destruct (querySelector sel d) as [p|] eqn:Hq; [|unfold Localizer.updateElement; by rewrite Hq].
  destruct content as [c|]; [|unfold Localizer.updateElement; by rewrite Hq].
  destruct (truthy (Some c)) eqn:Ht; [|unfold Localizer.updateElement; by rewrite Hq, Ht].
  unfold Localizer.updateElement.
  rewrite (querySelector_modifyDoc_hit sel (write type c) d p); [|apply write_matches|done].
  rewrite Ht, modifyDoc_modifyDoc. apply modifyDoc_ext. apply write_twice.
Qed.

(** X2: [updateElement] writes to the first match and to nothing else: the
    element found holds the value, written in the given mode, and every
    element that is neither inside it nor around it is as before. *)
Theorem updateElement_first_match_only (sel : selector) (c : string) (type : updateType)
    (d : document) (p : path) :
  querySelector sel d = Some p →
  c ≠ "" →
  elemAt p (rootNode (updateElement sel (Some c) type d))
  = (λ ek, write type c ek.1 ek.2) <$> elemAt p (rootNode d)
  ∧ ∀ q, apart q p →
         elemAt q (rootNode (updateElement sel (Some c) type d)) = elemAt q (rootNode d).
Proof.
  intros Hq Hc. unfold Localizer.updateElement. rewrite Hq. cbn.
  rewrite bool_decide_eq_false_2 by done. cbn. rewrite rootNode_modifyDoc. split.
  - apply elemAt_modifyAt_eq.
  - intros q Hqp. by apply elemAt_modifyAt_apart.
Qed.

Lemma body_modifyDoc_look p g d :
  (∀ e kids, attributes (g e kids).1 = attributes e ∧ classList (g e kids).1 = classList e) →
  attributes (body (modifyDoc p g d)) = attributes (body d)
  ∧ classList (body (modifyDoc p g d)) = classList (body d).
Proof.
  intros Hg. destruct p as [|i p]; cbn; [|done].
  specialize (Hg (body d) (bodyNodes d)). by destruct (g (body d) (bodyNodes d)).
Qed.

Lemma syncRegions_body_look bs t d :
  attributes (body (syncRegions bs t d)) = attributes (body d)
  ∧ classList (body (syncRegions bs t d)) = classList (body d).
Proof.
  revert d. induction bs as [|b bs IH]; intros d; [done|].
  unfold Localizer.syncRegions. cbn [foldl]. fold (syncRegions bs t (syncRegion t d b)).
  destruct (IH (syncRegion t d b)) as [-> ->].
  rewrite syncRegion_perform. destruct (Localizer.resolve parseHTML t d b) as [[p g]|] eqn:Hr; [|done].
  cbn. apply body_modifyDoc_look. intros e kids.
  unfold Localizer.resolve in Hr.
  destruct (querySelector (bSelector b) d); [|done].
  destruct (t !! bKey b) as [c|]; [|done].
  destruct (truthy (Some c)); [|done]. injection Hr as <- <-. apply write_look.
Qed.

(** X3: [updateUI] changes the page and the console only, and on the page it
    leaves the attributes and the classes of [body], the text direction
    among them, as they are. *)
Theorem updateUI_keeps_direction (s : state) :
  currentLang (updateUI s) = currentLang s
  ∧ translations (updateUI s) = translations s
  ∧ requests (updateUI s) = requests s
  ∧ attributes (body (page (updateUI s))) = attributes (body (page s))
  ∧ classList (body (page (updateUI s))) = classList (body (page s)).
Proof.
  split; [apply updateUI_currentLang|]. split; [apply updateUI_translations|].
  split; [apply updateUI_requests|].
  destruct (translations s !! currentLang s) as [t|] eqn:Ht.
  - rewrite (updateUI_with_resource parseHTML s t Ht). unfold setPage. cbn [page].
    apply syncRegions_body_look.
  - unfold Localizer.updateUI. by rewrite Ht.
Qed.

(** X4: [init] when the first load fails: 'ar' stays current with an empty
    cache, the page is the one delivered with the counters written by the
    first call of [updateCountdown], and the console has the line of the
    load and the line of [updateUI].  [init] when the load is served: the
    resource is cached under 'ar' and applied to the page, then the
    counters are written, and the console is empty. *)
Theorem init_outcomes (net : string → response) (utcOffset localOffset : Z → Z)
    (t0 t1 : Z) (d : document) :
  (loadFails net "ar" →
     ∃ err, init net utcOffset localOffset t0 t1 d
            = State "ar" ∅ (Countdown.updateCountdown utcOffset localOffset t0 t1 d)
                    [LoadFailed "ar" err; NoTranslations "ar"] ["ar"])
  ∧ (∀ status r, net "ar" = Response status (Some r) → ok status = true →
       init net utcOffset localOffset t0 t1 d
       = State "ar" {[ "ar" := r ]}
               (Countdown.updateCountdown utcOffset localOffset t0 t1
                  (syncRegions regionBindings r d)) [] ["ar"]).
Proof.
  split.
  - intros Hfail. unfold Localizer.init, initial, loadFails in *. cbn [currentLang].
    unfold loadLanguage. destruct (net "ar") as [|status json].
    + by eexists.
    + destruct Hfail as [Hok| ->].
      * rewrite Hok. by eexists.
      * destruct (ok status); by eexists.
  - intros status r Hnet Hok. unfold Localizer.init, initial. cbn [currentLang].
    unfold loadLanguage. rewrite Hnet, Hok. cbn zeta.
    rewrite (updateUI_with_resource parseHTML _ r); [done|].
    cbn. apply lookup_insert_eq.
Qed.

Lemma changeLanguage_served net lang s :
  serves net lang →
  is_Some (translations s !! currentLang s) →
  is_Some (translations (changeLanguage net lang s) !! currentLang (changeLanguage net lang s))
  ∧ console (changeLanguage net lang s) = console s.
Proof.
  intros (status & r & Hnet & Hok) Hcur.
  unfold Localizer.changeLanguage. case_decide as Hne; [done|].
  cbn [currentLang translations console setPage].
  rewrite updateUI_currentLang, updateUI_translations.
  destruct (translations s !! lang) as [t|] eqn:Hlang.
  - cbn. rewrite Hlang. split; [by eexists|].
    by rewrite (updateUI_console_resource parseHTML _ t).
  - unfold loadLanguage. rewrite Hnet, Hok. cbn.
    rewrite lookup_insert_eq. split; [by eexists|].
    rewrite (updateUI_console_resource parseHTML _ r); [done|].
    cbn. apply lookup_insert_eq.
Qed.

(** X6: While the network serves every resource that is asked for, the current
    language has its resource in the cache and nothing is written to the
    console. *)
Theorem served_session_consistent (s : state) (clicks : list ((string → response) * string)) :
  is_Some (translations s !! currentLang s) →
  Forall (λ c, serves c.1 c.2) clicks →
  is_Some (translations (foldl click s clicks) !! currentLang (foldl click s clicks))
  ∧ console (foldl click s clicks) = console s.
Proof.
  intros Hcur Hall. revert s Hcur. induction Hall as [|[net l] clicks Hc _ IH]; intros s Hcur.
  - done.
  - cbn [foldl]. unfold Localizer.click at 2 4 6. cbn [fst snd] in *.
    destruct (changeLanguage_served net l s Hc Hcur) as [Hcur' Hcon].
    destruct (IH _ Hcur') as [IH1 IH2]. split; [done|]. by rewrite IH2.
Qed.

Lemma rootNode_atFirst sel g d :
  rootNode (atFirst sel g d)
  = match querySelector sel d with
    | Some p => modifyAt p g (rootNode d)
    | None => rootNode d
    end.
Proof.
  unfold atFirst. destruct (querySelector sel d); [apply rootNode_modifyDoc|done].
Qed.

(** After [classList.remove(c)] on the first element of class [k], the
    first element of class [k] does not have the class [c]. *)
Lemma atFirst_classRemove k c d p :
  k ≠ c →
  querySelector (ByClass k) (atFirst (ByClass k) (onProps (classRemove c)) d) = Some p →
  ∃ e kids,
    elemAt p (rootNode (atFirst (ByClass k) (onProps (classRemove c)) d)) = Some (e, kids)
    ∧ hasClass c e = false.
Proof.
  intros Hne. unfold atFirst.
  destruct (querySelector (ByClass k) d) as [p0|] eqn:Hq; [|by rewrite Hq].
  rewrite (querySelector_modifyDoc_hit (ByClass k) _ d p0); [| |done].
  - intros [= <-]. rewrite rootNode_modifyDoc, elemAt_modifyAt_eq.
    destruct (qsNode_elemAt _ _ _ _ _ Hq) as (e & kids & _ & -> & _). cbn.
    exists (classRemove c e), kids. split; [done|apply hasClass_classRemove_eq].
  - intros e kids under. cbn. by apply hasClass_classRemove_ne.
Qed.

(** X7: A switch of the language closes the language menu: the first element
    of class lang-dropdown, if there is one, is without the class show. *)
Theorem changeLanguage_closes_menu (net : string → response) (lang : string) (s : state)
    (p : path) :
  lang ≠ currentLang s →
  querySelector (ByClass "lang-dropdown") (page (changeLanguage net lang s)) = Some p →
  ∃ e kids, elemAt p (rootNode (page (changeLanguage net lang s))) = Some (e, kids)
            ∧ hasClass "show" e = false.
Proof.
  intros Hne. destruct (changeLanguage_page parseHTML net lang s Hne) as [d ->].
  by apply atFirst_classRemove.
Qed.

Lemma everyElem_atFirst P sel g d :
  everyElem P (rootNode d) = true →
  (∀ e kids under, matches sel under e = true → P e = true →
     forallb (everyElem P) kids = true →
     P (g e kids).1 = true ∧ forallb (everyElem P) (g e kids).2 = true) →
  everyElem P (rootNode (atFirst sel g d)) = true.
Proof.
  intros Hall Hg. rewrite rootNode_atFirst.
  destruct (querySelector sel d) as [p|] eqn:Hq; [|done].
  apply everyElem_modifyAt; [done|]. intros e kids Hat Hkids.
  destruct (qsNode_elemAt _ _ _ _ _ Hq) as (e0 & k0 & under & Hat0 & Hm).
  rewrite Hat in Hat0. injection Hat0 as <- <-.
  apply (Hg e kids under); [done| |done]. by eapply everyElem_elemAt.
Qed.

Lemma everyElem_modifyDoc_onProps P p f d :
  everyElem P (rootNode d) = true →
  (∀ e, P e = true → P (f e) = true) →
  everyElem P (rootNode (modifyDoc p (onProps f) d)) = true.
Proof.
  intros Hall Hf. rewrite rootNode_modifyDoc. apply everyElem_modifyAt; [done|].
  intros e kids Hat Hkids. cbn. split; [|done]. apply Hf. by eapply everyElem_elemAt.
Qed.

Lemma activeOnlyFor_same lang e e' :
  hasClass "lang-option" e' = hasClass "lang-option" e →
  hasClass "active" e' = hasClass "active" e →
  getAttribute "data-lang" e' = getAttribute "data-lang" e →
  activeOnlyFor lang e' = activeOnlyFor lang e.
Proof. unfold activeOnlyFor. by intros -> -> ->. Qed.

Lemma activeOnlyFor_classRemove lang c e :
  c ≠ "lang-option" → c ≠ "active" →
  activeOnlyFor lang (classRemove c e) = activeOnlyFor lang e.
Proof.
  intros H1 H2. apply activeOnlyFor_same; [| |done]; by apply hasClass_classRemove_ne.
Qed.

Lemma activeOnlyFor_classAdd lang c e :
  c ≠ "lang-option" → c ≠ "active" →
  activeOnlyFor lang (classAdd c e) = activeOnlyFor lang e.
Proof.
  intros H1 H2. apply activeOnlyFor_same; [| |done]; by apply hasClass_classAdd_ne.
Qed.

Lemma activeOnlyFor_setAttribute lang name value e :
  name ≠ "data-lang" →
  activeOnlyFor lang (setAttribute name value e) = activeOnlyFor lang e.
Proof.
  intros Hne. apply activeOnlyFor_same; [done|done|].
  by apply getAttr_setAttr_ne.
Qed.

Lemma langTextFn_props lang e kids :
  (langTextFn lang e kids).1 = e
  ∧ ((langTextFn lang e kids).2 = kids ∨ ∃ name, (langTextFn lang e kids).2 = [Text name]).
Proof.
  unfold langTextFn, setTextContent.
  repeat case_decide; subst; try discriminate; cbn;
    (split; [done|]); first [by left | right; by eexists].
Qed.

Lemma everyElem_setDirection P lang d :
  (∀ e, P (classRemove "ltr" e) = P e) → (∀ e, P (classAdd "ltr" e) = P e) →
  (∀ v e, P (setAttribute "dir" v e) = P e) →
  everyElem P (rootNode d) = true →
  everyElem P (rootNode (setDirection lang d)) = true.
Proof.
  intros Hr Ha Hs Hall. unfold setDirection. case_decide.
  - apply everyElem_modifyDoc_onProps; [|by intros e; rewrite Hs].
    apply everyElem_modifyDoc_onProps; [done|by intros e; rewrite Hr].
  - apply everyElem_modifyDoc_onProps; [|by intros e; rewrite Hs].
    apply everyElem_modifyDoc_onProps; [done|by intros e; rewrite Ha].
Qed.

(** X8: After a switch of the language no option of another language is marked
    active: an element of class lang-option that has the class active is an
    option of the chosen code. *)
Theorem changeLanguage_marks_chosen_only (net : string → response) (lang : string)
    (s : state) (q : path) (e : props) (kids : list node) :
  lang ≠ currentLang s →
  elemAt q (rootNode (page (changeLanguage net lang s))) = Some (e, kids) →
  hasClass "lang-option" e = true →
  hasClass "active" e = true →
  getAttribute "data-lang" e = Some lang.
Proof.
  intros Hne Hat Hopt Hact.
  assert (Hall : everyElem (activeOnlyFor lang)
                   (rootNode (page (changeLanguage net lang s))) = true).
  { unfold Localizer.changeLanguage. rewrite decide_False by done. cbn [page setPage].
    apply everyElem_atFirst.
    2:{ intros e' k' _ _ He' Hk'. cbn. split; [|done].
        by rewrite activeOnlyFor_classRemove. }
    apply everyElem_setDirection.
    1-3: intros; by rewrite ?activeOnlyFor_classRemove, ?activeOnlyFor_classAdd,
                            ?activeOnlyFor_setAttribute.
    apply everyElem_atFirst.
    2:{ intros e' k' _ _ He' Hk'. destruct (langTextFn_props lang e' k') as [-> [-> | [name ->]]];
        by split. }
    apply everyElem_atFirst.
    2:{ intros e' k' under Hm _ Hk'. cbn. split; [|done].
        cbn in Hm. apply andb_true_iff in Hm as [_ Hlang].
        apply bool_decide_eq_true in Hlang. unfold activeOnlyFor.
        rewrite getAttribute_classAdd, Hlang, bool_decide_eq_true_2 by done.
        apply orb_true_r. }
    rewrite rootNode_forEachByClass. apply everyElem_forEachNode.
    intros e'. unfold activeOnlyFor. destruct (hasClass "lang-option" e') eqn:Ho.
    - by rewrite hasClass_classRemove_eq, andb_false_r.
    - by rewrite Ho. }
  pose proof (everyElem_elemAt _ _ _ _ _ Hall Hat) as HP.
  unfold activeOnlyFor in HP. rewrite Hopt, Hact in HP. cbn in HP.
  by apply bool_decide_eq_true in HP.
Qed.

Lemma querySelector_atFirst_onProps sel sel' f d :
  (∀ e under, matches sel under (f e) = matches sel under e) →
  (∀ e pos, anchor sel pos (f e) = anchor sel pos e) →
  querySelector sel (atFirst sel' (onProps f) d) = querySelector sel d.
Proof.
  intros Hm Ha. unfold atFirst. destruct (querySelector sel' d) as [p|]; [|done].
  unfold querySelector. rewrite rootNode_modifyDoc. by apply qsNode_modifyAt_onProps.
Qed.

Lemma querySelector_setDirection c lang d :
  c ≠ "ltr" →
  querySelector (ByClass c) (setDirection lang d) = querySelector (ByClass c) d.
Proof.
  intros Hne. unfold setDirection, querySelector.
  case_decide; rewrite !rootNode_modifyDoc, !qsNode_modifyAt_onProps; try done;
    intros e under; cbn; rewrite ?hasClass_setAttribute;
    by rewrite ?hasClass_classRemove_ne, ?hasClass_classAdd_ne.
Qed.

Lemma textAt_setDirection p lang d :
  textAt p (rootNode (setDirection lang d)) = textAt p (rootNode d).
Proof.
  unfold setDirection. case_decide; by rewrite !rootNode_modifyDoc, !textAt_modifyAt_onProps.
Qed.

Lemma textAt_atFirst_onProps p sel f d :
  textAt p (rootNode (atFirst sel (onProps f) d)) = textAt p (rootNode d).
Proof.
  rewrite rootNode_atFirst. destruct (querySelector sel d); [|done].
  apply textAt_modifyAt_onProps.
Qed.

Lemma langTextFn_named lang name e kids :
  languageName lang = Some name → langTextFn lang e kids = (e, [Text name]).
Proof.
  unfold languageName, langTextFn, setTextContent.
  repeat case_decide; subst; try discriminate; by intros [= <-].
Qed.

(** X9: After a switch to 'ar', 'fr' or 'en' the language menu is labelled
    with the name of the language: the text of the first element of class
    current-lang, if there is one, is that name. *)
Theorem changeLanguage_labels_menu (net : string → response) (lang name : string)
    (s : state) (p : path) :
  lang ≠ currentLang s →
  languageName lang = Some name →
  querySelector (ByClass "current-lang") (page (changeLanguage net lang s)) = Some p →
  textAt p (rootNode (page (changeLanguage net lang s))) = Some name.
Proof.
  intros Hne Hname. unfold Localizer.changeLanguage. rewrite decide_False by done.
  cbn [page setPage].
  set (d2 := atFirst (ByLangOption lang) _ _).
  rewrite querySelector_atFirst_onProps;
    [|intros e under; cbn; by apply hasClass_classRemove_ne|done].
  rewrite querySelector_setDirection by done.
  rewrite textAt_atFirst_onProps, textAt_setDirection.
  unfold atFirst. destruct (querySelector (ByClass "current-lang") d2) as [p0|] eqn:Hq;
    [|by rewrite Hq].
  rewrite (querySelector_modifyDoc_hit _ _ d2 p0); [| |done].
  - intros [= <-]. unfold textAt. rewrite rootNode_modifyDoc, elemAt_modifyAt_eq.
    destruct (qsNode_elemAt _ _ _ _ _ Hq) as (e & kids & _ & -> & _). cbn.
    by rewrite (langTextFn_named lang name).
  - intros e kids under. by destruct (langTextFn_props lang e kids) as [-> _].
Qed.

End WithParser.


Lemma updateElement_first_match_only_witness :
  elemAt [3] (rootNode (updateElement plainText (ByDataKey "home") (Some "Home") TextMode samplePage))
  = (λ ek, write plainText TextMode "Home" ek.1 ek.2) <$> elemAt [3] (rootNode samplePage)
  ∧ ∀ q, apart q [3] →
         elemAt q (rootNode (updateElement plainText (ByDataKey "home") (Some "Home") TextMode
                               samplePage))
         = elemAt q (rootNode samplePage).
Proof.
  apply (updateElement_first_match_only plainText (ByDataKey "home") "Home" TextMode
           samplePage [3]); [reflexivity|discriminate].
Defined.

Lemma init_outcomes_witness :
  (∃ err, init plainText offline utcPlus1 utcPlus1 newYear newYear counterPage
          = State "ar" ∅
                  (Countdown.updateCountdown utcPlus1 utcPlus1 newYear newYear counterPage)
                  [LoadFailed "ar" err; NoTranslations "ar"] ["ar"])
  ∧ init plainText online utcPlus1 utcPlus1 newYear newYear counterPage
    = State "ar" {[ "ar" := arResource ]}
            (Countdown.updateCountdown utcPlus1 utcPlus1 newYear newYear
               (syncRegions plainText regionBindings arResource counterPage)) [] ["ar"].
Proof.
  destruct (init_outcomes plainText offline utcPlus1 utcPlus1 newYear newYear counterPage)
    as [Hoff _].
  destruct (init_outcomes plainText online utcPlus1 utcPlus1 newYear newYear counterPage)
    as [_ Hon].
  split; [apply Hoff; exact I|apply (Hon 200%Z arResource); reflexivity].
Defined.

(** The page of the two outcomes: the counters are written in both, the
    title in the second only. *)
Example init_pages :
  page (init plainText offline utcPlus1 utcPlus1 newYear newYear counterPage)
  = Document (el [] [])
      [ Elem (el [("data-key", "hero_title")] []) [Text "..."];
        Elem (el [("id", "days")] []) [Text "30"];
        Elem (el [("id", "hours")] []) [Text "00"];
        Elem (el [("id", "minutes")] []) [Text "00"];
        Elem (el [("id", "seconds")] []) [Text "00"] ]
  ∧ page (init plainText online utcPlus1 utcPlus1 newYear newYear counterPage)
    = Document (el [] [])
        [ Elem (el [("data-key", "hero_title")] []) [Text "Keewepa AR"];
          Elem (el [("id", "days")] []) [Text "30"];
          Elem (el [("id", "hours")] []) [Text "00"];
          Elem (el [("id", "minutes")] []) [Text "00"];
          Elem (el [("id", "seconds")] []) [Text "00"] ].
Proof. split; vm_compute; reflexivity. Qed.

Lemma served_session_consistent_witness :
  is_Some (translations (foldl (click plainText) loaded [(online, "fr"); (online, "ar")])
             !! currentLang (foldl (click plainText) loaded [(online, "fr"); (online, "ar")]))
  ∧ console (foldl (click plainText) loaded [(online, "fr"); (online, "ar")]) = console loaded.
Proof.
  apply (served_session_consistent plainText loaded [(online, "fr"); (online, "ar")]).
  - exists arResource. vm_compute. reflexivity.
  - repeat constructor.
    + exists 200%Z, frResource. split; reflexivity.
    + exists 200%Z, arResource. split; reflexivity.
Defined.

Lemma changeLanguage_closes_menu_witness :
  ∃ e kids, elemAt [0; 1] (rootNode (page (changeLanguage plainText online "fr"
                                            (initial menuPage)))) = Some (e, kids)
            ∧ hasClass "show" e = false.
Proof.
  apply (changeLanguage_closes_menu plainText online "fr" (initial menuPage) [0; 1]).
  - vm_compute. discriminate.
  - vm_compute. reflexivity.
Defined.

Lemma changeLanguage_marks_chosen_only_witness :
  getAttribute "data-lang" (el [("data-lang", "fr")] ["lang-option"; "active"]) = Some "fr".
Proof.
  apply (changeLanguage_marks_chosen_only plainText online "fr" (initial menuPage)
           [0; 1; 1] (el [("data-lang", "fr")] ["lang-option"; "active"]) [Text "FR"]).
  - vm_compute. discriminate.
  - vm_compute. reflexivity.
  - vm_compute. reflexivity.
  - vm_compute. reflexivity.
Defined.

Lemma changeLanguage_labels_menu_witness :
  textAt [0; 0; 0] (rootNode (page (changeLanguage plainText online "fr" (initial menuPage))))
  = Some "Français".
Proof.
  apply (changeLanguage_labels_menu plainText online "fr" "Français" (initial menuPage)
           [0; 0; 0]).
  - vm_compute. discriminate.
  - reflexivity.
  - vm_compute. reflexivity.
Defined.

End LocalizerMore.

(** ** Facts about calls of [changeLanguage] that overlap *)
Module OverlapTheory.
Import Dom Localizer Overlap Samples LocalizerTheory.

Section WithParser.

Variable parseHTML : string → list node.

#[local] Abbreviation changeLanguage := (changeLanguage parseHTML).
#[local] Abbreviation resume := (resume parseHTML).
#[local] Abbreviation step := (step parseHTML).
#[local] Abbreviation run := (run parseHTML).

Lemma loadLanguage_received net lang s :
  loadLanguage net lang s = received (net lang) lang (fetch lang s).
Proof. reflexivity. Qed.

(** A call that no other call overlaps is the call of [changeLanguage] as
    one transition: the click, the answer to its fetch, and the rest. *)
Lemma changeLanguage_alone net lang s :
  now (run [Click lang; Answer 0 (net lang); Resume 0] (Calls s [] []))
  = changeLanguage net lang s.
Proof.
  unfold Overlap.run, Localizer.changeLanguage. cbn [foldl Overlap.step now].
  destruct (decide (lang = currentLang s)); [done|].
  destruct (translations s !! lang); done.
Qed.

Lemma resume_translations lang s : translations (resume lang s) = translations s.
Proof.
  unfold Overlap.resume. cbn [translations setPage].
  by rewrite updateUI_translations.
Qed.

Lemma received_lookup r lang s l :
  l ≠ lang → translations (received r lang s) !! l = translations s !! l.
Proof.
  intros Hne. destruct r as [|status [t|]]; cbn; [done| |]; destruct (ok status); try done.
  cbn. by rewrite lookup_insert_ne.
Qed.

Lemma received_cached r lang s l :
  is_Some (translations s !! l) → is_Some (translations (received r lang s) !! l).
Proof.
  intros Hl. destruct (decide (l = lang)) as [->|Hne]; [|by rewrite received_lookup].
  destruct r as [|status [t|]]; cbn; [done| |]; destruct (ok status); try done.
  cbn. rewrite lookup_insert_eq. by eexists.
Qed.

Lemma step_cached a ev l :
  is_Some (translations (now a) !! l) → is_Some (translations (now (step a ev)) !! l).
Proof.
  intros Hl. destruct ev as [lang|k r|k]; unfold Overlap.step.
  - destruct (decide (lang = currentLang (now a))); [done|].
    destruct (translations (now a) !! lang); cbn [now];
      [by rewrite resume_translations|done].
  - destruct (fetching a !! k); cbn [now]; [by apply received_cached|done].
  - destruct (returning a !! k); cbn [now]; [by rewrite resume_translations|done].
Qed.

(** The calls of [fetch] for the code [l], among the calls so far. *)
#[local] Abbreviation fetchesOf l s := (filter (λ x, x = l) (requests s)).

Lemma resume_requests lang s : requests (resume lang s) = requests s.
Proof.
  unfold Overlap.resume. cbn [requests setPage].
  by rewrite updateUI_requests.
Qed.

Lemma received_requests r lang s : requests (received r lang s) = requests s.
Proof. destruct r as [|status [t|]]; cbn; [done| |]; by destruct (ok status). Qed.

Lemma step_settled a ev l t :
  translations (now a) !! l = Some t → l ∉ fetching a →
  translations (now (step a ev)) !! l = Some t
  ∧ (l ∉ fetching (step a ev))
  ∧ fetchesOf l (now (step a ev)) = fetchesOf l (now a).
Proof.
  intros Hl Hnot. destruct ev as [lang|k r|k]; unfold Overlap.step.
  - destruct (decide (lang = currentLang (now a))); [done|].
    destruct (translations (now a) !! lang) eqn:Hlang; cbn [now fetching].
    + by rewrite resume_translations, resume_requests.
    + assert (Hne : lang ≠ l) by congruence.
      split; [done|]. split.
      * rewrite elem_of_app, list_elem_of_singleton. intros [Hin| ->]; done.
      * cbn. rewrite filter_app, filter_cons_False, filter_nil by done.
        apply app_nil_r.
  - destruct (fetching a !! k) as [lang|] eqn:Hk; cbn [now fetching]; [|done].
    split; [|split].
    + rewrite received_lookup; [done|]. intros ->.
      apply Hnot. by eapply list_elem_of_lookup_2.
    + intros Hin. apply Hnot. by eapply list_elem_of_delete_inv.
    + by rewrite received_requests.
  - destruct (returning a !! k); cbn [now fetching]; [|done].
    by rewrite resume_translations, resume_requests.
Qed.

(** X5: Calls of [changeLanguage] may overlap: clicks, answers of the
    network and the calls that go on after their load come in any order.  A
    code that has a resource in the cache keeps having one.  When no fetch
    for the code is under way, it keeps the same resource, and [fetch] is
    not called for it again. *)
Theorem cached_resource_stays (a : calls) (evs : list event) (lang : string)
    (r : gmap string string) :
  translations (now a) !! lang = Some r →
  is_Some (translations (now (run evs a)) !! lang)
  ∧ (lang ∉ fetching a →
       translations (now (run evs a)) !! lang = Some r
       ∧ (lang ∉ fetching (run evs a))
       ∧ filter (λ x, x = lang) (requests (now (run evs a)))
         = filter (λ x, x = lang) (requests (now a))).
Proof.
  intros Hr. split.
  - assert (Hsome : is_Some (translations (now a) !! lang)) by by eexists.
    clear Hr. revert a Hsome. induction evs as [|ev evs IH]; intros a Hsome; [done|].
    cbn [Overlap.run foldl]. apply IH. by apply step_cached.
  - revert a Hr. induction evs as [|ev evs IH]; intros a Hr Hnot; [done|].
    cbn [Overlap.run foldl].
    destruct (step_settled a ev lang r Hr Hnot) as (Hr' & Hnot' & Hreq).
    destruct (IH _ Hr' Hnot') as (? & ? & Hreq'). split_and!; try done.
    by rewrite <- Hreq.
Qed.

End WithParser.

(** Two clicks on 'fr' before the first answer: [fetch] is called twice,
    and the second answer replaces the resource that the first one put
    into the cache. *)
Example overlapping_calls :
  let a := run plainText
             [ Click "fr"; Click "fr";
               Answer 0 (Response 200 (Some frResource));
               Answer 0 (Response 200 (Some arResource)) ]
             (Calls loaded [] []) in
  requests (now a) = ["ar"; "fr"; "fr"]
  ∧ translations (now a) !! "fr" = Some arResource
  ∧ returning a = ["fr"; "fr"].
Proof. vm_compute. done. Qed.

(** The cached resource of 'ar' through two overlapping calls for 'fr'. *)
Lemma cached_resource_stays_witness :
  translations (now (run plainText
                       [ Click "fr"; Click "fr";
                         Answer 1 (Response 200 (Some frResource));
                         Resume 0; Answer 0 NetworkError; Click "ar"; Resume 0 ]
                       (Calls loaded [] []))) !! "ar" = Some arResource.
Proof.
  destruct (cached_resource_stays plainText (Calls loaded [] [])
              [ Click "fr"; Click "fr";
                Answer 1 (Response 200 (Some frResource));
                Resume 0; Answer 0 NetworkError; Click "ar"; Resume 0 ]
              "ar" arResource) as [_ Hstay].
  - vm_compute. reflexivity.
  - destruct Hstay as [Hsame _]; [|exact Hsame]. cbn. apply not_elem_of_nil.
Defined.

End OverlapTheory.

(** ** Facts about the handlers of the language menu and the gallery controls *)
Module MenuTheory.
Import Dom DomMore DomTheory TreeTheory TreeMore Localizer Menu Samples MoreSamples.

Lemma hasClass_classToggle c c' e :
  hasClass c' (classToggle c e)
  = if decide (c' = c) then negb (hasClass c e) else hasClass c' e.
Proof.
  unfold classToggle. destruct (hasClass c e) eqn:Hc; case_decide as Heq; subst.
  - apply hasClass_classRemove_eq.
  - by apply hasClass_classRemove_ne.
  - apply hasClass_classAdd_eq.
  - by apply hasClass_classAdd_ne.
Qed.

Lemma classToggle_twice c c' e :
  hasClass c' (classToggle c (classToggle c e)) = hasClass c' e.
Proof.
  rewrite !hasClass_classToggle. case_decide; [subst|done].
  rewrite decide_True by done. apply negb_involutive.
Qed.

(** X10: A click on the toggle opens the closed menu and closes the open one,
    and a second click gives every class of the menu the state it had; the
    attributes and the content of the menu are never touched. *)
Theorem toggleClick_twice (d : document) (p : path) :
  querySelector (ByClass "lang-dropdown") d = Some p →
  ∃ e kids,
    elemAt p (rootNode d) = Some (e, kids)
    ∧ toggleClick d = (modifyDoc p (onProps (classToggle "show")) d, Normal)
    ∧ elemAt p (rootNode (toggleClick d).1) = Some (classToggle "show" e, kids)
    ∧ hasClass "show" (classToggle "show" e) = negb (hasClass "show" e)
    ∧ (toggleClick (toggleClick d).1).2 = Normal
    ∧ elemAt p (rootNode (toggleClick (toggleClick d).1).1)
      = Some (classToggle "show" (classToggle "show" e), kids)
    ∧ attributes (classToggle "show" (classToggle "show" e)) = attributes e
    ∧ ∀ c, hasClass c (classToggle "show" (classToggle "show" e)) = hasClass c e.
Proof.
  intros Hq. destruct (qsNode_elemAt _ _ _ _ _ Hq) as (e & kids & _ & Hat & _).
  exists e, kids. split; [done|].
  assert (Hhit : querySelector (ByClass "lang-dropdown")
                   (modifyDoc p (onProps (classToggle "show")) d) = Some p).
  { apply querySelector_modifyDoc_hit; [|done]. intros e' k' under. cbn.
    rewrite hasClass_classToggle. by rewrite decide_False. }
  unfold toggleClick. rewrite Hq. cbn [fst snd]. rewrite Hhit. cbn [fst snd].
  split; [done|]. split.
  { by rewrite rootNode_modifyDoc, elemAt_modifyAt_eq, Hat. }
  split; [by rewrite hasClass_classToggle, decide_True|]. split; [done|]. split.
  { by rewrite !rootNode_modifyDoc, !elemAt_modifyAt_eq, Hat. }
  split.
  - unfold classToggle. by repeat destruct (hasClass "show" _).
  - intros c. apply classToggle_twice.
Qed.

(** X11: A click outside the language selector closes the menu: afterwards the
    first element of class lang-dropdown is without the class show. *)
Theorem documentClick_outside_closes (target langSelector p : path) (d : document) :
  querySelector (ByClass "language-selector") d = Some langSelector →
  contains langSelector target = false →
  querySelector (ByClass "lang-dropdown") (documentClick target d).1 = Some p →
  (documentClick target d).2 = Normal
  ∧ ∃ e kids, elemAt p (rootNode (documentClick target d).1) = Some (e, kids)
              ∧ hasClass "show" e = false.
Proof.
  intros Hsel Hout. unfold documentClick. rewrite Hsel, Hout.
  destruct (querySelector (ByClass "lang-dropdown") d) as [p0|] eqn:Hq; cbn [fst snd].
  - rewrite (querySelector_modifyDoc_hit _ _ d p0); [| |done].
    + intros [= <-]. split; [done|].
      rewrite rootNode_modifyDoc, elemAt_modifyAt_eq.
      destruct (qsNode_elemAt _ _ _ _ _ Hq) as (e & kids & _ & -> & _). cbn.
      exists (classRemove "show" e), kids. split; [done|apply hasClass_classRemove_eq].
    + intros e kids under. cbn. by apply hasClass_classRemove_ne.
  - by rewrite Hq.
Qed.

Lemma lookup_map {A B} (f : A → B) (l : list A) i : map f l !! i = f <$> l !! i.
Proof. revert i. induction l as [|x l IH]; intros [|i]; cbn; auto. Qed.

Lemma elemAt_forEachNode c f q n :
  elemAt q (forEachNode c f n)
  = (λ ek, (if hasClass c ek.1 then f ek.1 else ek.1, map (forEachNode c f) ek.2))
      <$> elemAt q n.
Proof.
  revert n. induction q as [|i q IH]; intros [s|e kids]; cbn; try done.
  rewrite lookup_map. destruct (kids !! i) as [x|]; cbn; [apply IH|done].
Qed.

(** A change of the properties of one element leaves the properties of
    every other element as they are. *)
Lemma elemAt_modifyAt_onProps_other q p f n e kids :
  q ≠ p → elemAt q (modifyAt p (onProps f) n) = Some (e, kids) →
  ∃ kids0, elemAt q n = Some (e, kids0).
Proof.
  revert p n. induction q as [|i q IH]; intros p [s|e0 k0] Hne; try (by destruct p).
  - destruct p as [|j p]; [done|]. cbn. intros [= <- <-]. by eexists.
  - destruct p as [|j p]; cbn.
    + intros Hat. by exists kids.
    + destruct (decide (i = j)) as [->|Hij].
      * rewrite list_lookup_alter_eq. destruct (k0 !! j) as [x|]; cbn; [|done].
        apply IH. congruence.
      * rewrite list_lookup_alter_ne by done. intros Hat. by exists kids.
Qed.

(** X12: After a click on a gallery control the clicked control has the class
    active and no other control has it, and the value handed to
    [filterGallery] is the control's [data-filter] attribute. *)
Theorem filterClick_marks_clicked_only (button : path) (d : document)
    (b : props) (kb : list node) :
  elemAt button (rootNode d) = Some (b, kb) →
  (∃ e kids, elemAt button (rootNode (filterClick button d).1) = Some (e, kids)
             ∧ hasClass "active" e = true)
  ∧ (∀ q e kids, elemAt q (rootNode (filterClick button d).1) = Some (e, kids) →
                 hasClass "control-btn" e = true → hasClass "active" e = true →
                 q = button)
  ∧ (filterClick button d).2 = getAttribute "data-filter" b.
Proof.
  intros Hb. unfold filterClick. cbn [fst snd].
  rewrite rootNode_modifyDoc, rootNode_forEachByClass.
  assert (Hat : elemAt button
                  (modifyAt button (onProps (classAdd "active"))
                     (forEachNode "control-btn" (classRemove "active") (rootNode d)))
                = Some (classAdd "active"
                          (if hasClass "control-btn" b then classRemove "active" b else b),
                        map (forEachNode "control-btn" (classRemove "active")) kb)).
  { by rewrite elemAt_modifyAt_eq, elemAt_forEachNode, Hb. }
  split; [|split].
  - eexists _, _. split; [exact Hat|]. apply hasClass_classAdd_eq.
  - intros q e kids Hq Hctl Hact. destruct (decide (q = button)) as [|Hne]; [done|].
    destruct (elemAt_modifyAt_onProps_other _ _ _ _ _ _ Hne Hq) as [kids0 Hq0].
    rewrite elemAt_forEachNode in Hq0.
    destruct (elemAt q (rootNode d)) as [[e0 k0]|]; [|done]. cbn in Hq0.
    injection Hq0 as <- _. destruct (hasClass "control-btn" e0) eqn:Hc0.
    + by rewrite hasClass_classRemove_eq in Hact.
    + by rewrite Hc0 in Hctl.
  - rewrite Hat. cbn. by destruct (hasClass "control-btn" b).
Qed.


Lemma toggleClick_twice_witness :
  ∃ e kids,
    elemAt [0; 1] (rootNode menuPage) = Some (e, kids)
    ∧ toggleClick menuPage = (modifyDoc [0; 1] (onProps (classToggle "show")) menuPage, Normal)
    ∧ elemAt [0; 1] (rootNode (toggleClick menuPage).1) = Some (classToggle "show" e, kids)
    ∧ hasClass "show" (classToggle "show" e) = negb (hasClass "show" e)
    ∧ (toggleClick (toggleClick menuPage).1).2 = Normal
    ∧ elemAt [0; 1] (rootNode (toggleClick (toggleClick menuPage).1).1)
      = Some (classToggle "show" (classToggle "show" e), kids)
    ∧ attributes (classToggle "show" (classToggle "show" e)) = attributes e
    ∧ ∀ c, hasClass c (classToggle "show" (classToggle "show" e)) = hasClass c e.
Proof. apply (toggleClick_twice menuPage [0; 1]). reflexivity. Defined.

(** A click on the region of 'home', outside the language selector. *)
Lemma documentClick_outside_closes_witness :
  (documentClick [2] menuPage).2 = Normal
  ∧ ∃ e kids, elemAt [0; 1] (rootNode (documentClick [2] menuPage).1) = Some (e, kids)
              ∧ hasClass "show" e = false.
Proof.
  apply (documentClick_outside_closes [2] [0] [0; 1] menuPage); reflexivity.
Defined.

(** A click on the control for 'men'. *)
Lemma filterClick_marks_clicked_only_witness :
  (∃ e kids, elemAt [1; 1] (rootNode (filterClick [1; 1] menuPage).1) = Some (e, kids)
             ∧ hasClass "active" e = true)
  ∧ (∀ q e kids, elemAt q (rootNode (filterClick [1; 1] menuPage).1) = Some (e, kids) →
                 hasClass "control-btn" e = true → hasClass "active" e = true →
                 q = [1; 1])
  ∧ (filterClick [1; 1] menuPage).2
    = getAttribute "data-filter" (el [("data-filter", "men")] ["control-btn"]).
Proof.
  apply (filterClick_marks_clicked_only [1; 1] menuPage
           (el [("data-filter", "men")] ["control-btn"]) [Text "Men"]).
  reflexivity.
Defined.

End MenuTheory.

(** ** Facts about the gallery filter *)
Module GalleryTheory.
Import Gallery MoreSamples.

#[local] Open Scope nat_scope.

Lemma enqueue_Permutation t q : enqueue t q ≡ₚ t :: q.
Proof.
  induction q as [|u r IH]; [done|]. cbn. case_decide; [|done].
  rewrite IH. apply Permutation_swap.
Qed.

Lemma byDue_Permutation l : byDue l ≡ₚ l.
Proof.
  unfold byDue. assert (H : ∀ acc, foldl (λ q t, enqueue t q) acc l ≡ₚ l ++ acc).
  { induction l as [|t l IH]; intros acc; [done|]. cbn [foldl].
    rewrite IH, enqueue_Permutation. by rewrite <- Permutation_middle. }
  by rewrite H, app_nil_r.
Qed.

Lemma item_eta it : Item (dataCategory it) (display it) (opacity it) (transform it) = it.
Proof. by destruct it. Qed.

Lemma fired_nil i it : fired i [] it = it.
Proof. unfold fired. cbn. apply item_eta. Qed.

Lemma fired_ext i l l' it :
  (∀ k, k ∈ todo <$> l ↔ k ∈ todo <$> l') → fired i l it = fired i l' it.
Proof.
  intros Hiff. unfold fired.
  by rewrite (bool_decide_ext _ _ (Hiff (Collapse i))), (bool_decide_ext _ _ (Hiff (Reveal i))).
Qed.

Lemma fire_lookup t its i :
  fire t its !! i = fired i [Timer 0 t] <$> its !! i.
Proof.
  unfold fired. destruct t as [j|j]; cbn [fire].
  - destruct (decide (j = i)) as [->|Hne].
    + rewrite list_lookup_alter_eq. destruct (its !! i) as [it|]; [|done]. cbn.
      rewrite bool_decide_eq_false_2, bool_decide_eq_true_2; [done| |].
      * apply list_elem_of_singleton. done.
      * rewrite list_elem_of_singleton. done.
    + rewrite list_lookup_alter_ne by done. destruct (its !! i) as [it|]; [|done]. cbn.
      rewrite !bool_decide_eq_false_2; [by rewrite item_eta| |];
        rewrite list_elem_of_singleton; congruence.
  - destruct (decide (j = i)) as [->|Hne].
    + rewrite list_lookup_alter_eq. destruct (its !! i) as [it|]; [|done]. cbn.
      rewrite bool_decide_eq_true_2, bool_decide_eq_false_2; [done| |].
      * rewrite list_elem_of_singleton. done.
      * apply list_elem_of_singleton. done.
    + rewrite list_lookup_alter_ne by done. destruct (its !! i) as [it|]; [|done]. cbn.
      rewrite !bool_decide_eq_false_2; [by rewrite item_eta| |];
        rewrite list_elem_of_singleton; congruence.
Qed.

Lemma todo_cons k x l (a b : string) :
  (if bool_decide (k ∈ todo <$> l) then a
   else if bool_decide (k ∈ todo <$> [x]) then a else b)
  = if bool_decide (k ∈ todo <$> x :: l) then a else b.
Proof.
  rewrite fmap_cons. destruct (decide (k ∈ todo <$> l)) as [Hl|Hl].
  - rewrite !bool_decide_eq_true_2; [done| |done]. by right.
  - rewrite (bool_decide_eq_false_2 _ Hl).
    apply (f_equal (λ c : bool, if c then a else b)). apply bool_decide_ext.
    cbn. rewrite !elem_of_cons, elem_of_nil. tauto.
Qed.

Lemma fired_cons i x l it : fired i l (fired i [x] it) = fired i (x :: l) it.
Proof.
  unfold fired. cbn [dataCategory display opacity transform].
  f_equal; apply todo_cons.
Qed.

(** What a run of timers leaves of an item depends on which tasks ran for
    it, not on their order. *)
Lemma fireAll_lookup l its i :
  foldl (λ its x, fire (todo x) its) its l !! i = fired i l <$> its !! i.
Proof.
  revert its. induction l as [|x l IH]; intros its.
  - cbn. destruct (its !! i) as [it|]; [|done]. cbn. by rewrite fired_nil.
  - cbn [foldl]. rewrite IH, fire_lookup.
    destruct (its !! i) as [it|]; [|done]. cbn.
    rewrite <- (fired_cons i x l it).
    by replace (fired i [Timer 0 (todo x)] it) with (fired i [x] it)
      by (by apply fired_ext).
Qed.

Lemma elapse_lookup dt g i :
  items (elapse dt g) !! i
  = fired i (filter (λ x, due x ≤ now g + dt) (timers g)) <$> items g !! i.
Proof.
  unfold elapse. cbn [items]. rewrite fireAll_lookup.
  destruct (items g !! i) as [it|]; [|done]. cbn. f_equal.
  apply fired_ext. intros k. by rewrite byDue_Permutation.
Qed.

Lemma elem_of_imap_schedule c t its x :
  x ∈ imap (schedule c t) its ↔ ∃ j it, its !! j = Some it ∧ x = schedule c t j it.
Proof.
  rewrite list_elem_of_lookup. split.
  - intros [j Hj]. rewrite list_lookup_imap in Hj.
    destruct (its !! j) as [it|] eqn:Hit; [|done]. injection Hj as <-. by exists j, it.
  - intros (j & it & Hit & ->). exists j. by rewrite list_lookup_imap, Hit.
Qed.

Lemma reveal_scheduled c t its (P : timer → Prop) `{!∀ x, Decision (P x)} i it :
  its !! i = Some it →
  Reveal i ∈ todo <$> filter P (imap (schedule c t) its)
  ↔ selected c it = true ∧ P (Timer (t + 10) (Reveal i)).
Proof.
  intros Hit. rewrite list_elem_of_fmap. split.
  - intros (x & Hx & Hin). apply list_elem_of_filter in Hin as [HP Hin].
    apply elem_of_imap_schedule in Hin as (j & it' & Hj & ->).
    unfold schedule in *. destruct (selected c it') eqn:Hs; cbn in Hx; [|done].
    injection Hx as ->. rewrite Hit in Hj. by injection Hj as <-.
  - intros [Hs HP]. exists (Timer (t + 10) (Reveal i)). split; [done|].
    apply list_elem_of_filter. split; [done|]. apply elem_of_imap_schedule.
    exists i, it. split; [done|]. unfold schedule. by rewrite Hs.
Qed.

Lemma collapse_scheduled c t its (P : timer → Prop) `{!∀ x, Decision (P x)} i it :
  its !! i = Some it →
  Collapse i ∈ todo <$> filter P (imap (schedule c t) its)
  ↔ selected c it = false ∧ P (Timer (t + 300) (Collapse i)).
Proof.
  intros Hit. rewrite list_elem_of_fmap. split.
  - intros (x & Hx & Hin). apply list_elem_of_filter in Hin as [HP Hin].
    apply elem_of_imap_schedule in Hin as (j & it' & Hj & ->).
    unfold schedule in *. destruct (selected c it') eqn:Hs; cbn in Hx; [done|].
    injection Hx as ->. rewrite Hit in Hj. by injection Hj as <-.
  - intros [Hs HP]. exists (Timer (t + 300) (Collapse i)). split; [done|].
    apply list_elem_of_filter. split; [done|]. apply elem_of_imap_schedule.
    exists i, it. split; [done|]. unfold schedule. by rewrite Hs.
Qed.

Lemma filter_none {A} (P : A → Prop) `{!∀ x, Decision (P x)} (l : list A) :
  (∀ x, x ∈ l → ¬ P x) → filter P l = [].
Proof.
  induction l as [|x l IH]; intros Hl; [done|].
  rewrite filter_cons_False by (apply Hl; by left). apply IH. intros y Hy. apply Hl. by right.
Qed.

Lemma selected_all it : selected "all" it = true.
Proof. done. Qed.

Lemma fired_decided i l it (c r : bool) :
  bool_decide (Collapse i ∈ todo <$> l) = c →
  bool_decide (Reveal i ∈ todo <$> l) = r →
  fired i l it
  = Item (dataCategory it) (if c then "none" else display it)
         (if r then "1" else opacity it) (if r then "scale(1)" else transform it).
Proof. intros <- <-. done. Qed.

(** The item of index [i], [dt] milliseconds after [filterGallery] on a
    gallery without pending timers. *)
Lemma filterGallery_lookup c g dt i it :
  timers g = [] → items g !! i = Some it →
  items (elapse dt (filterGallery c g)) !! i
  = Some (if selected c it
          then Item (dataCategory it) "block"
                    (if decide (10 ≤ dt) then "1" else opacity it)
                    (if decide (10 ≤ dt) then "scale(1)" else transform it)
          else Item (dataCategory it)
                    (if decide (300 ≤ dt) then "none" else display it)
                    "0" "scale(0.95)").
Proof.
  intros Ht Hit. rewrite elapse_lookup. unfold filterGallery. cbn [items timers now].
  rewrite Ht, app_nil_l, list_lookup_fmap, Hit. cbn. f_equal.
  rewrite (fired_decided i _ _
             (bool_decide (selected c it = false ∧ now g + 300 ≤ now g + dt))
             (bool_decide (selected c it = true ∧ now g + 10 ≤ now g + dt))).
  - unfold touch. destruct (selected c it) eqn:Hs; cbn.
    + rewrite bool_decide_eq_false_2 by (by intros [? _]).
      destruct (decide (10 ≤ dt)).
      * by rewrite bool_decide_eq_true_2 by (split; [done|lia]).
      * by rewrite bool_decide_eq_false_2 by (intros [_ ?]; lia).
    + rewrite (bool_decide_eq_false_2 (false = true ∧ _)) by (by intros [? _]).
      destruct (decide (300 ≤ dt)).
      * by rewrite bool_decide_eq_true_2 by (split; [done|lia]).
      * by rewrite bool_decide_eq_false_2 by (intros [_ ?]; lia).
  - apply bool_decide_ext.
    by apply (collapse_scheduled c (now g) (items g) (λ x, due x ≤ now g + dt) i it).
  - apply bool_decide_ext.
    by apply (reveal_scheduled c (now g) (items g) (λ x, due x ≤ now g + dt) i it).
Qed.

Lemma filterGallery_timers c g dt :
  timers g = [] → 300 ≤ dt → timers (elapse dt (filterGallery c g)) = [].
Proof.
  intros Ht Hdt. unfold elapse, filterGallery. cbn [items timers now].
  rewrite Ht, app_nil_l. apply filter_none. intros x Hx.
  apply elem_of_imap_schedule in Hx as (j & it & _ & ->).
  unfold schedule. destruct (selected c it); cbn; lia.
Qed.

(** X13: The two phases of [filterGallery], on a gallery without pending
    timers.  An item that is selected is displayed at once and fully
    visible from 10 ms on; an item that is not selected is transparent and
    shrunk at once, keeps its place in the layout for 300 ms, and is taken
    out after that.  After 300 ms no timer is left. *)
Theorem filterGallery_phases (category : string) (g : gallery) (dt i : nat) (it : item) :
  timers g = [] →
  items g !! i = Some it →
  items (elapse dt (filterGallery category g)) !! i
  = Some (if selected category it
          then Item (dataCategory it) "block"
                    (if decide (10 ≤ dt) then "1" else opacity it)
                    (if decide (10 ≤ dt) then "scale(1)" else transform it)
          else Item (dataCategory it)
                    (if decide (300 ≤ dt) then "none" else display it)
                    "0" "scale(0.95)")
  ∧ (300 ≤ dt → timers (elapse dt (filterGallery category g)) = []).
Proof.
  intros Ht Hit. split; [by apply filterGallery_lookup|]. intros Hdt.
  by apply filterGallery_timers.
Qed.

(** X14: The wildcard shows every item, whatever its category; a category
    shows its own items and takes out the others, those without a
    [data-category] among them. *)
Theorem filterGallery_settled (category : string) (g : gallery) (dt i : nat) (it : item) :
  timers g = [] →
  300 ≤ dt →
  items g !! i = Some it →
  items (elapse dt (filterGallery "all" g)) !! i
  = Some (Item (dataCategory it) "block" "1" "scale(1)")
  ∧ (category ≠ "all" →
     items (elapse dt (filterGallery category g)) !! i
     = Some (if decide (dataCategory it = Some category)
             then Item (dataCategory it) "block" "1" "scale(1)"
             else Item (dataCategory it) "none" "0" "scale(0.95)")).
Proof.
  intros Ht Hdt Hit. split.
  - rewrite (filterGallery_lookup "all" g dt i it Ht Hit). rewrite selected_all.
    by rewrite !decide_True by lia.
  - intros Hc. rewrite (filterGallery_lookup category g dt i it Ht Hit).
    unfold selected. rewrite (bool_decide_eq_false_2 _ Hc). cbn.
    rewrite !(decide_True (P := 10 ≤ dt)) by lia.
    rewrite (decide_True (P := 300 ≤ dt)) by lia.
    destruct (decide (dataCategory it = Some category)) as [Hcat|Hcat].
    + by rewrite bool_decide_eq_true_2.
    + by rewrite bool_decide_eq_false_2.
Qed.

(** X15: A timer of an earlier choice is not cancelled by the next one.  When
    the wildcard is chosen [T] milliseconds after a category, an item of
    another category ends up taken out of the layout if [T] is below 300,
    although it is fully visible otherwise: the pending collapse of the
    first choice runs after the second choice has displayed the item. *)
Theorem filterGallery_stale_collapse (category : string) (g : gallery) (T dt i : nat)
    (it : item) :
  timers g = [] →
  items g !! i = Some it →
  selected category it = false →
  10 ≤ dt →
  300 ≤ T + dt →
  items (elapse dt (filterGallery "all" (elapse T (filterGallery category g)))) !! i
  = Some (Item (dataCategory it) (if decide (T < 300) then "none" else "block")
               "1" "scale(1)").
Proof.
  intros Ht Hit Hsel Hdt Hlate.
  pose proof (filterGallery_lookup category g T i it Ht Hit) as H1.
  rewrite Hsel in H1.
  remember (elapse T (filterGallery category g)) as g1 eqn:Hg1.
  remember (Item (dataCategory it) (if decide (300 ≤ T) then "none" else display it)
                 "0" "scale(0.95)") as it1 eqn:Hit1.
  assert (Hcat : dataCategory it1 = dataCategory it) by (by rewrite Hit1).
  assert (Hnow : now g1 = now g + T) by (by rewrite Hg1).
  assert (Htim : timers g1
                 = filter (λ x, now g + T < due x) (imap (schedule category (now g)) (items g))).
  { rewrite Hg1. unfold elapse, filterGallery. cbn [items timers now]. by rewrite Ht. }
  clear Hg1.
  rewrite elapse_lookup. unfold filterGallery. cbn [items timers now].
  rewrite list_lookup_fmap, H1. cbn. f_equal.
  rewrite Hnow, Htim, filter_app, list_filter_filter.
  rewrite (fired_decided i _ _ (bool_decide (T < 300)) true).
  - unfold touch. rewrite selected_all. cbn. rewrite Hcat.
    destruct (decide (T < 300)).
    + by rewrite bool_decide_eq_true_2.
    + by rewrite bool_decide_eq_false_2.
  - apply bool_decide_ext. rewrite fmap_app, elem_of_app.
    pose proof (collapse_scheduled category (now g) (items g)
                  (λ x, due x ≤ now g + T + dt ∧ now g + T < due x) i it Hit) as Ha.
    pose proof (collapse_scheduled "all" (now g + T) (items g1)
                  (λ x, due x ≤ now g + T + dt) i it1 H1) as Hb.
    cbn beta in Ha, Hb. rewrite Ha, Hb, selected_all. cbn. split.
    + intros [(_ & _ & Hlt)|[Hf _]]; [lia|done].
    + intros Hlt. left. split; [done|]. lia.
  - apply bool_decide_eq_true_2. rewrite fmap_app, elem_of_app. right.
    apply (reveal_scheduled "all" (now g + T) (items g1)
             (λ x, due x ≤ now g + T + dt) i it1 H1).
    split; [done|]. cbn. lia.
Qed.


(** The women's item 100 ms after the choice of 'men': transparent, still
    in the layout. *)
Lemma filterGallery_phases_witness :
  items (elapse 100 (filterGallery "men" threeItems)) !! 1
  = Some (if selected "men" (Item (Some "women") "" "" "")
          then Item (Some "women") "block"
                    (if decide (10 ≤ 100) then "1" else "")
                    (if decide (10 ≤ 100) then "scale(1)" else "")
          else Item (Some "women")
                    (if decide (300 ≤ 100) then "none" else "")
                    "0" "scale(0.95)")
  ∧ (300 ≤ 100 → timers (elapse 100 (filterGallery "men" threeItems)) = []).
Proof.
  apply (filterGallery_phases "men" threeItems 100 1 (Item (Some "women") "" "" ""));
    reflexivity.
Defined.

Lemma filterGallery_settled_witness :
  items (elapse 300 (filterGallery "all" threeItems)) !! 2
  = Some (Item None "block" "1" "scale(1)")
  ∧ ("men" ≠ "all" →
     items (elapse 300 (filterGallery "men" threeItems)) !! 2
     = Some (if decide (None = Some "men")
             then Item None "block" "1" "scale(1)"
             else Item None "none" "0" "scale(0.95)")).
Proof.
  apply (filterGallery_settled "men" threeItems 300 2 (Item None "" "" ""));
    [reflexivity|lia|reflexivity].
Defined.

(** 'men', and 'all' 200 ms later: the women's item ends up hidden. *)
Lemma filterGallery_stale_collapse_witness :
  items (elapse 150 (filterGallery "all" (elapse 200 (filterGallery "men" threeItems)))) !! 1
  = Some (Item (Some "women") (if decide (200 < 300) then "none" else "block")
               "1" "scale(1)").
Proof.
  apply (filterGallery_stale_collapse "men" threeItems 200 150 1
           (Item (Some "women") "" "" ""));
    [reflexivity|reflexivity|reflexivity|lia|lia].
Defined.

End GalleryTheory.

(** ** More facts about the slider *)
Module SliderMore.
Import Dom DomTheory Slider SliderTheory SliderRuns Samples.

#[local] Open Scope Z_scope.

Lemma after_inRange ev s i :
  inRange s i →
  (handle ev s).2 = Normal
  ∧ inRange (after ev s)
      ((i + displacement [ev]) mod Z.of_nat (length (slides s)))
  ∧ activeSlides (after ev s)
    = [Z.to_nat ((i + displacement [ev]) mod Z.of_nat (length (slides s)))].
Proof.
  intros Hs. destruct ev; cbn [displacement foldr].
  - destruct (next_inRange s i Hs) as (_ & ? & ? & ?). by rewrite Z.add_0_l.
  - destruct (prev_inRange s i Hs) as (? & ? & ?).
    by replace (i + (0 - 1)) with (i - 1) by lia.
  - destruct (next_inRange s i Hs) as (_ & ? & ? & ?). by rewrite Z.add_0_l.
Qed.

Lemma displacement_cons ev evs : displacement (ev :: evs) = displacement [ev] + displacement evs.
Proof. unfold displacement. destruct ev; cbn [foldr]; lia. Qed.

Lemma runEvents_length evs s : length (slides (runEvents evs s)) = length (slides s).
Proof.
  revert s. induction evs as [|ev evs IH]; intros s; [done|].
  cbn. change (foldl _ (after ev s) evs) with (runEvents evs (after ev s)).
  by rewrite IH, after_slides_length.
Qed.

(** X16: Clicks and timer ticks add up: from the slide of index [i], any
    sequence of events leads to the slide of index [i] plus the number of
    next clicks and ticks less the number of previous clicks, modulo the
    number of slides. *)
Theorem runEvents_index (evs : list event) (s : slider) (i : Z) :
  inRange s i →
  currentSlide (runEvents evs s)
  = Num ((i + displacement evs) mod Z.of_nat (length (slides s))).
Proof.
  revert s i. induction evs as [|ev evs IH]; intros s i Hs.
  - cbn. destruct Hs as [-> Hi]. rewrite Z.add_0_r, Z.mod_small by lia. done.
  - cbn [runEvents foldl]. change (foldl _ (after ev s) evs) with (runEvents evs (after ev s)).
    destruct (after_inRange ev s i Hs) as (_ & Hr & _).
    rewrite (IH _ _ Hr), after_slides_length, (displacement_cons ev evs).
    rewrite Zplus_mod_idemp_l. f_equal. f_equal. lia.
Qed.

(** X17: After every event on a slider with slides exactly one slide has the
    class active, the current one, and no handler throws. *)
Theorem reachable_one_active (l : list props) (s : slider) (ev : event) :
  reachable l s →
  (1 ≤ length l)%nat →
  (handle ev s).2 = Normal
  ∧ ∃ i, currentSlide (after ev s) = Num i
         ∧ 0 ≤ i < Z.of_nat (length l)
         ∧ activeSlides (after ev s) = [Z.to_nat i].
Proof.
  intros Hs Hn. destruct (reachable_inRange l s Hn Hs) as [i Hi].
  destruct (after_inRange ev s i Hi) as (Hc & [Hcur Hr] & Hact).
  split; [done|]. eexists. split; [done|]. split; [|done].
  rewrite after_slides_length in Hr.
  rewrite <- (reachable_slides_length l s Hs). exact Hr.
Qed.

Lemma showSlide_keeps index s j e :
  slides (showSlide index s).1 !! j = Some e →
  ∃ e0, slides s !! j = Some e0
        ∧ attributes e = attributes e0
        ∧ ∀ c, c ≠ "active" → hasClass c e = hasClass c e0.
Proof.
  assert (Hcleared : ∀ e', map (classRemove "active") (slides s) !! j = Some e' →
            ∃ e0, slides s !! j = Some e0 ∧ attributes e' = attributes e0
                  ∧ ∀ c, c ≠ "active" → hasClass c e' = hasClass c e0).
  { intros e' He'. change (map ?f ?l) with (f <$> l) in He'.
    rewrite list_lookup_fmap in He'. destruct (slides s !! j) as [e0|]; [|done].
    injection He' as <-. exists e0. split; [done|]. split; [done|].
    intros c Hc. by apply hasClass_classRemove_ne. }
  unfold showSlide. destruct index as [z|]; [|apply Hcleared].
  destruct (item (Num z) _); [|apply Hcleared]. cbn [fst slides].
  destruct (decide (Z.to_nat z = j)) as [->|Hne].
  - rewrite list_lookup_alter_eq.
    destruct (map _ (slides s) !! j) as [e'|] eqn:He'; [|done]. cbn.
    intros [= <-]. destruct (Hcleared e' eq_refl) as (e0 & H0 & Ha & Hc).
    exists e0. split; [done|]. split; [done|].
    intros c Hca. rewrite hasClass_classAdd_ne by done. by apply Hc.
  - rewrite list_lookup_alter_ne by done. apply Hcleared.
Qed.

(** X18: The slider touches nothing of a slide but the class active: in every
    reachable state every slide has the attributes and the other classes of
    the markup. *)
Theorem reachable_keeps_classes (l : list props) (s : slider) (j : nat) (e : props) :
  reachable l s →
  slides s !! j = Some e →
  ∃ e0, l !! j = Some e0
        ∧ attributes e = attributes e0
        ∧ ∀ c, c ≠ "active" → hasClass c e = hasClass c e0.
Proof.
  intros Hs. revert e. induction Hs as [|ev s Hs IH]; intros e He.
  - exists e. by split.
  - assert (Hshow : ∃ index, after ev s = (showSlide index s).1) by (destruct ev; by eexists).
    destruct Hshow as [index Hshow]. rewrite Hshow in He.
    destruct (showSlide_keeps index s j e He) as (e1 & H1 & Ha1 & Hc1).
    destruct (IH e1 H1) as (e0 & H0 & Ha0 & Hc0).
    exists e0. split; [done|]. split; [congruence|].
    intros c Hc. rewrite Hc1 by done. by apply Hc0.
Qed.

(** X19: [showSlide] with an index that is no index of a slide throws after it
    has taken the class active from every slide, and leaves [currentSlide]
    as it is. *)
Theorem showSlide_out_of_range (index : jsnum) (s : slider) :
  item index (slides s) = None →
  showSlide index s
  = (Slider (map (classRemove "active") (slides s)) (currentSlide s), ThrowTypeError)
  ∧ activeSlides (showSlide index s).1 = [].
Proof.
  intros Hnone.
  assert (Hshow : showSlide index s
    = (Slider (map (classRemove "active") (slides s)) (currentSlide s), ThrowTypeError)).
  { unfold showSlide. destruct index as [z|]; [|done].
    unfold item in *. case_decide; [|done].
    change (map ?f ?l) with (f <$> l). rewrite list_lookup_fmap, Hnone. done. }
  split; [done|]. rewrite Hshow. cbn [fst]. unfold activeSlides. cbn [slides].
  apply filter_seq_none. intros j _. unfold isActive. cbn [slides].
  change (map ?f ?l) with (f <$> l). rewrite list_lookup_fmap.
  destruct (slides s !! j) as [e0|]; cbn; [|done].
  by rewrite hasClass_classRemove_eq.
Qed.


Lemma runEvents_index_witness :
  currentSlide (runEvents [NextClick; AutoAdvance; PrevClick; NextClick; NextClick]
                  (initTestimonialSlider threeSlides))
  = Num ((0 + displacement [NextClick; AutoAdvance; PrevClick; NextClick; NextClick])
         mod Z.of_nat (length (slides (initTestimonialSlider threeSlides)))).
Proof.
  apply (runEvents_index [NextClick; AutoAdvance; PrevClick; NextClick; NextClick]
           (initTestimonialSlider threeSlides) 0).
  split; [reflexivity|cbn; lia].
Defined.

Lemma reachable_one_active_witness :
  (handle PrevClick (after AutoAdvance (initTestimonialSlider threeSlides))).2 = Normal
  ∧ ∃ i, currentSlide (after PrevClick (after AutoAdvance (initTestimonialSlider threeSlides)))
         = Num i
         ∧ 0 ≤ i < Z.of_nat (length threeSlides)
         ∧ activeSlides (after PrevClick (after AutoAdvance (initTestimonialSlider threeSlides)))
           = [Z.to_nat i].
Proof.
  apply (reachable_one_active threeSlides
           (after AutoAdvance (initTestimonialSlider threeSlides)) PrevClick).
  - repeat constructor.
  - cbn. lia.
Defined.

Lemma reachable_keeps_classes_witness :
  ∃ e0, threeSlides !! 1%nat = Some e0
        ∧ attributes (Props [] ["testimonial-slide"; "active"] None) = attributes e0
        ∧ ∀ c, c ≠ "active" →
               hasClass c (Props [] ["testimonial-slide"; "active"] None) = hasClass c e0.
Proof.
  apply (reachable_keeps_classes threeSlides
           (after NextClick (initTestimonialSlider threeSlides)) 1).
  - repeat constructor.
  - vm_compute. reflexivity.
Defined.

Lemma showSlide_out_of_range_witness :
  showSlide NaN (initTestimonialSlider threeSlides)
  = (Slider (map (classRemove "active") threeSlides) (Num 0), ThrowTypeError)
  ∧ activeSlides (showSlide NaN (initTestimonialSlider threeSlides)).1 = [].
Proof.
  apply (showSlide_out_of_range NaN (initTestimonialSlider threeSlides)). reflexivity.
Defined.

End SliderMore.

(** ** Facts about the launch countdown *)
Module CountdownTheory.
Import Dom DomMore Counters Countdown Samples DomTheory TreeTheory TreeMore.

#[local] Open Scope Z_scope.

(** The four numbers for a difference just below thirty days. *)
Lemma split_full : split (30 * msPerDay) = Fields 30 0 0 0.
Proof. reflexivity. Qed.

Lemma split_below (g : Z) :
  0 < g < 1000 → split (30 * msPerDay - g) = Fields 29 23 59 59.
Proof.
  intros Hg. unfold split, msPerDay, msPerHour, msPerMinute.
  assert (Hrem : ∀ m q, 0 < m → 0 ≤ q → g < m →
            Z.rem (q * m + (m - g)) m = m - g).
  { intros m q Hm Hq Hgm. rewrite Z.rem_mod_nonneg by nia.
    rewrite Z.add_comm, Z.mod_add by lia. apply Z.mod_small. lia. }
  f_equal.
  - symmetry. apply (Z.div_unique _ _ 29 (86400000 - g)); lia.
  - replace (30 * (1000 * 60 * 60 * 24) - g)
      with (29 * (1000 * 60 * 60 * 24) + (1000 * 60 * 60 * 24 - g)) by lia.
    rewrite Hrem by lia.
    symmetry. apply (Z.div_unique _ _ 23 (3600000 - g)); lia.
  - replace (30 * (1000 * 60 * 60 * 24) - g)
      with (719 * (1000 * 60 * 60) + (1000 * 60 * 60 - g)) by lia.
    rewrite Hrem by lia.
    symmetry. apply (Z.div_unique _ _ 59 (60000 - g)); lia.
  - replace (30 * (1000 * 60 * 60 * 24) - g)
      with (43199 * (1000 * 60) + (1000 * 60 - g)) by lia.
    rewrite Hrem by lia.
    symmetry. apply (Z.div_unique _ _ 59 (1000 - g)); lia.
Qed.

Section WithZone.

Variable utcOffset : Z → Z.
Variable localOffset : Z → Z.

#[local] Abbreviation shift := (shift utcOffset localOffset).
#[local] Abbreviation plus30Days := (plus30Days utcOffset localOffset).
#[local] Abbreviation remaining := (remaining utcOffset localOffset).
#[local] Abbreviation updateCountdown := (updateCountdown utcOffset localOffset).
#[local] Abbreviation startCountdown := (startCountdown utcOffset localOffset).

Lemma plus30Days_shift (t : Z) :
  plus30Days t = t + 30 * msPerDay + shift t.
Proof. unfold Countdown.plus30Days, Countdown.shift. cbn zeta. lia. Qed.

(** *** What a tick writes *)

(** A text written to one of the counters leaves the four counters where
    they are. *)
Lemma setTextContent_counters pd ph pm ps d q s :
  countersAt pd ph pm ps d → q ∈ [pd; ph; pm; ps] →
  countersAt pd ph pm ps (modifyDoc q (setTextContent s) d).
Proof.
  intros (Hd & Hh & Hm & Hs & Adh & Adm & Ads & Ahm & Ahs & Ams) Hq.
  assert (Hcase : ∀ p, p ∈ [pd; ph; pm; ps] → p = q ∨ apart p q).
  { intros p Hp. rewrite !elem_of_cons, elem_of_nil in Hp, Hq.
    destruct Hp as [->|[->|[->|[->|[]]]]], Hq as [->|[->|[->|[->|[]]]]];
      auto using apart_sym. }
  unfold countersAt, getElementById in *.
  split_and!; try done; apply querySelector_write; try done; apply Hcase;
    rewrite !elem_of_cons; auto.
Qed.

Lemma counter_is_elem id d p :
  getElementById id d = Some p → is_Some (elemAt p (rootNode d)).
Proof.
  intros Hq. destruct (qsNode_elemAt _ _ _ _ _ Hq) as (e & kids & _ & Hat & _).
  by eexists.
Qed.

(** One call of [updateCountdown] on a page with the four counters: each
    counter shows its number, and the counters are where they were. *)
Lemma updateCountdown_counters pd ph pm ps d t0 t1 :
  countersAt pd ph pm ps d →
  countersAt pd ph pm ps (updateCountdown t0 t1 d)
  ∧ displayed [pd; ph; pm; ps] (updateCountdown t0 t1 d)
    = map (λ n, Some (show n)) (numbers (split (remaining t0 t1))).
Proof.
  intros Hc. pose proof Hc as (Hd & Hh & Hm & Hs & Adh & Adm & Ads & Ahm & Ahs & Ams).
  unfold Countdown.updateCountdown. cbn zeta. rewrite Hd, Hh, Hm, Hs. cbn [setInnerText].
  split.
  - repeat (apply setTextContent_counters; [|rewrite !elem_of_cons; auto]). done.
  - apply counter_is_elem in Hd, Hh, Hm, Hs.
    unfold displayed, numbers. cbn [map]. rewrite !rootNode_modifyDoc.
    repeat f_equal.
    + rewrite !textAt_write_apart by done. by apply textAt_write.
    + rewrite !textAt_write_apart by done. apply textAt_write.
      by rewrite elemAt_modifyAt_apart by by apply apart_sym.
    + rewrite !textAt_write_apart by done. apply textAt_write.
      by rewrite !elemAt_modifyAt_apart by by apply apart_sym.
    + apply textAt_write.
      by rewrite !elemAt_modifyAt_apart by by apply apart_sym.
Qed.

Lemma startCountdown_counters pd ph pm ps ticks d :
  countersAt pd ph pm ps d → countersAt pd ph pm ps (startCountdown ticks d).
Proof.
  revert d. induction ticks as [|[a b] ticks IH]; intros d Hc; [done|].
  cbn. apply IH. by apply updateCountdown_counters.
Qed.

(** C9: a page with the four counters, none inside another; any calls of
    [updateCountdown] so far, and one more that reads the clock twice, [t0]
    for the deadline and [t1] for now, less than a second apart, on a host
    whose zone offsets at the two ends of the thirty days differ by a day at
    most.  After this call the four counters show the days, hours, minutes
    and seconds of the remaining time, whatever they showed before.  The
    deadline is thirty days after [t0], corrected by the difference of the
    offsets, so it moves with the clock from call to call; the remaining
    time is thirty days less the gap between the two readings, more than
    twenty-eight days at every call and never zero, and the days counter
    shows 28, 29, 30 or 31; without a change of offset the counters show
    30 00 00 00, or 29 23 59 59 when the clock moved between the two
    readings. *)
Theorem countdown_never_expires (ticks : list (Z * Z)) (t0 t1 : Z) (d : document)
    (pd ph pm ps : path) :
  countersAt pd ph pm ps d →
  t0 ≤ t1 < t0 + 1000 →
  Z.abs (shift t0) ≤ msPerDay →
  let d' := startCountdown (ticks ++ [(t0, t1)]) d in
  let left := remaining t0 t1 in
  displayed [pd; ph; pm; ps] d' = map (λ n, Some (show n)) (numbers (split left))
  ∧ countersAt pd ph pm ps d'
  ∧ plus30Days t0 = t0 + 30 * msPerDay + shift t0
  ∧ left = 30 * msPerDay + shift t0 - (t1 - t0)
  ∧ 28 * msPerDay < left
  ∧ 28 ≤ days (split left)
  ∧ textAt pd (rootNode d') ∈ [Some "28"; Some "29"; Some "30"; Some "31"]
  ∧ (shift t0 = 0 → t1 = t0 →
       displayed [pd; ph; pm; ps] d' = [Some "30"; Some "00"; Some "00"; Some "00"])
  ∧ (shift t0 = 0 → t0 < t1 →
       displayed [pd; ph; pm; ps] d' = [Some "29"; Some "23"; Some "59"; Some "59"])
  ∧ ∀ t0', t0 < t0' → shift t0' = shift t0 → plus30Days t0 < plus30Days t0'.
Proof.
  intros Hc Hread Hshift d' left.
  assert (Hshown : countersAt pd ph pm ps d'
                   ∧ displayed [pd; ph; pm; ps] d'
                     = map (λ n, Some (show n)) (numbers (split left))).
  { subst d'. unfold Countdown.startCountdown. rewrite foldl_app. cbn [foldl fst snd].
    apply updateCountdown_counters. by apply startCountdown_counters. }
  destruct Hshown as [Hc' Hshown].
  assert (Hleft : left = 30 * msPerDay + shift t0 - (t1 - t0)).
  { subst left. unfold Countdown.remaining. rewrite plus30Days_shift. lia. }
  assert (Hlow : 28 * msPerDay < left).
  { rewrite Hleft. unfold msPerDay in *. lia. }
  assert (Hdays : 28 ≤ days (split left) < 32).
  { cbn [split days]. split.
    - apply Z.div_le_lower_bound; unfold msPerDay in *; lia.
    - apply Z.div_lt_upper_bound; unfold msPerDay in *; lia. }
  split_and!; try done.
  - apply plus30Days_shift.
  - lia.
  - assert (Hpd : textAt pd (rootNode d') = Some (show (days (split left)))).
    { unfold displayed, numbers in Hshown. cbn [map] in Hshown. by injection Hshown. }
    rewrite Hpd.
    assert (Hn : days (split left) = 28 ∨ days (split left) = 29
                 ∨ days (split left) = 30 ∨ days (split left) = 31) by lia.
    rewrite !elem_of_cons.
    destruct Hn as [->|[->|[->| ->]]]; auto.
  - intros Hs ->. rewrite Hshown, Hleft, Hs.
    replace (30 * msPerDay + 0 - (t0 - t0)) with (30 * msPerDay) by lia.
    by rewrite split_full.
  - intros Hs Hlt. rewrite Hshown, Hleft, Hs.
    replace (30 * msPerDay + 0 - (t1 - t0)) with (30 * msPerDay - (t1 - t0)) by lia.
    by rewrite split_below by lia.
  - intros t0' Hlt Hs'. rewrite !plus30Days_shift, Hs'. lia.
Qed.

End WithZone.

(** The first call and two ticks of the timer on the page with the four
    counters, on a host on UTC+1 all year, from 2025-01-01T00:00:00.000Z;
    the second reading of the last tick is a millisecond late. *)
Lemma countdown_never_expires_witness :
  displayed [[0]; [1]; [2]; [3]]%nat
    (startCountdown utcPlus1 utcPlus1
       [ (newYear, newYear + 3);
         (newYear + 1000, newYear + 1000);
         (newYear + 2001, newYear + 2002) ] counters)
  = [Some "29"; Some "23"; Some "59"; Some "59"]
  ∧ 28 * msPerDay < remaining utcPlus1 utcPlus1 (newYear + 2001) (newYear + 2002).
Proof.
  assert (Hap : ∀ i j : nat, i ≠ j → apart [i] [j]).
  { intros i j Hne. split; intros [k Hk]; cbn in Hk; congruence. }
  destruct (countdown_never_expires utcPlus1 utcPlus1
              [(newYear, newYear + 3); (newYear + 1000, newYear + 1000)]
              (newYear + 2001) (newYear + 2002) counters [0%nat] [1%nat] [2%nat] [3%nat])
    as (_ & _ & _ & _ & Hlow & _ & _ & _ & Hshow & _).
  - unfold countersAt. split_and!; try reflexivity; apply Hap; lia.
  - lia.
  - vm_compute. discriminate.
  - split; [apply Hshow; [reflexivity|lia]|exact Hlow].
Defined.

(** A page without the seconds counter: the call writes the other three. *)
Example countdown_without_seconds :
  updateCountdown utcPlus1 utcPlus1 newYear newYear
    (Document (Props [] [] None)
       [ Elem (Props [("id", "days")] [] None) [];
         Elem (Props [("id", "hours")] [] None) [Text "--"];
         Elem (Props [("id", "minutes")] [] None) [Text "--"] ])
  = Document (Props [] [] None)
      [ Elem (Props [("id", "days")] [] None) [Text "30"];
        Elem (Props [("id", "hours")] [] None) [Text "00"];
        Elem (Props [("id", "minutes")] [] None) [Text "00"] ].
Proof. vm_compute. reflexivity. Qed.

End CountdownTheory.

(** ** More facts about the countdown *)
Module CountdownMore.
Import Dom Countdown.

#[local] Open Scope Z_scope.

(** X20: For a deadline that is ahead, the four numbers are the days, hours,
    minutes and seconds of the difference: they add up to it, up to the
    milliseconds that are dropped, and hours, minutes and seconds stay
    below 24, 60 and 60. *)
Theorem split_decomposes (diff : Z) :
  0 ≤ diff →
  diff = days (split diff) * msPerDay + hours (split diff) * msPerHour
         + minutes (split diff) * msPerMinute + seconds (split diff) * 1000
         + diff mod 1000
  ∧ 0 ≤ days (split diff)
  ∧ 0 ≤ hours (split diff) < 24
  ∧ 0 ≤ minutes (split diff) < 60
  ∧ 0 ≤ seconds (split diff) < 60.
Proof.
  intros Hd. unfold split, msPerDay, msPerHour, msPerMinute. cbn [days hours minutes seconds].
  rewrite !Z.rem_mod_nonneg by lia.
  change (1000 * 60 * 60 * 24) with 86400000. change (1000 * 60 * 60) with 3600000.
  change (1000 * 60) with 60000.
  pose proof (Z.div_mod diff 86400000 ltac:(lia)) as H1.
  pose proof (Z.mod_pos_bound diff 86400000 ltac:(lia)) as B1.
  pose proof (Z.div_mod diff 3600000 ltac:(lia)) as H2.
  pose proof (Z.mod_pos_bound diff 3600000 ltac:(lia)) as B2.
  pose proof (Z.div_mod diff 60000 ltac:(lia)) as H3.
  pose proof (Z.mod_pos_bound diff 60000 ltac:(lia)) as B3.
  pose proof (Z.div_mod diff 1000 ltac:(lia)) as H4.
  pose proof (Z.mod_pos_bound diff 1000 ltac:(lia)) as B4.
  pose proof (Z.div_mod (diff mod 86400000) 3600000 ltac:(lia)) as H5.
  pose proof (Z.mod_pos_bound (diff mod 86400000) 3600000 ltac:(lia)) as B5.
  pose proof (Z.div_mod (diff mod 3600000) 60000 ltac:(lia)) as H6.
  pose proof (Z.mod_pos_bound (diff mod 3600000) 60000 ltac:(lia)) as B6.
  pose proof (Z.div_mod (diff mod 60000) 1000 ltac:(lia)) as H7.
  pose proof (Z.mod_pos_bound (diff mod 60000) 1000 ltac:(lia)) as B7.
  assert (E1 : (diff mod 86400000) mod 3600000 = diff mod 3600000).
  { apply Zdiv.Z.mod_mod_divide. by exists 24. }
  assert (E2 : (diff mod 3600000) mod 60000 = diff mod 60000).
  { apply Zdiv.Z.mod_mod_divide. by exists 60. }
  assert (E3 : (diff mod 60000) mod 1000 = diff mod 1000).
  { apply Zdiv.Z.mod_mod_divide. by exists 60. }
  assert (0 ≤ diff / 86400000) by (apply Z.div_pos; lia).
  assert (0 ≤ diff mod 86400000 / 3600000) by (apply Z.div_pos; lia).
  assert (0 ≤ diff mod 3600000 / 60000) by (apply Z.div_pos; lia).
  assert (0 ≤ diff mod 60000 / 1000) by (apply Z.div_pos; lia).
  repeat split; lia.
Qed.

Lemma split_decomposes_bounds (diff : Z) :
  0 ≤ diff →
  0 ≤ hours (split diff) < 24
  ∧ 0 ≤ minutes (split diff) < 60
  ∧ 0 ≤ seconds (split diff) < 60.
Proof.
  intros Hd. unfold split, msPerDay, msPerHour, msPerMinute. cbn [hours minutes seconds].
  rewrite !Z.rem_mod_nonneg by lia.
  change (1000 * 60 * 60 * 24) with 86400000. change (1000 * 60 * 60) with 3600000.
  change (1000 * 60) with 60000.
  pose proof (Z.mod_pos_bound diff 86400000 ltac:(lia)).
  pose proof (Z.mod_pos_bound diff 3600000 ltac:(lia)).
  pose proof (Z.mod_pos_bound diff 60000 ltac:(lia)).
  repeat split; try (apply Z.div_pos; lia); apply Z.div_lt_upper_bound; lia.
Qed.

Lemma show_below_100 (n : Z) : 0 ≤ n < 100 → String.length (show n) = 2%nat.
Proof.
  intros Hn.
  assert (Hall : forallb (λ k, Nat.eqb (String.length (show (Z.of_nat k))) 2) (seq 0 100) = true)
    by (vm_compute; reflexivity).
  rewrite forallb_forall in Hall. specialize (Hall (Z.to_nat n)).
  rewrite Z2Nat.id in Hall by lia. apply Nat.eqb_eq, Hall.
  apply in_seq. lia.
Qed.

Lemma padStart2_length (s : string) : (2 ≤ String.length (padStart2 s))%nat.
Proof.
  unfold padStart2. destruct s as [|a [|b s]]; [by vm_compute|by vm_compute|cbn; lia].
Qed.

(** X21: The counters of hours, minutes and seconds always have two characters,
    and the counter of days has two or more, for every deadline that is
    ahead. *)
Theorem shown_width (diff : Z) :
  0 ≤ diff →
  (2 ≤ String.length (show (days (split diff))))%nat
  ∧ String.length (show (hours (split diff))) = 2%nat
  ∧ String.length (show (minutes (split diff))) = 2%nat
  ∧ String.length (show (seconds (split diff))) = 2%nat.
Proof.
  intros Hd. destruct (split_decomposes_bounds diff Hd) as (Hh & Hm & Hs).
  split; [apply padStart2_length|]. repeat split; apply show_below_100; lia.
Qed.

(** X22: A deadline that has just passed does not show zeros: the floor of a
    negative quotient makes every counter -1 during the first second. *)
Theorem split_just_passed (diff : Z) :
  -1000 ≤ diff < 0 →
  split diff = Fields (-1) (-1) (-1) (-1)
  ∧ map show [days (split diff); hours (split diff); minutes (split diff);
              seconds (split diff)]
    = ["-1"; "-1"; "-1"; "-1"].
Proof.
  intros Hd.
  assert (Hs : split diff = Fields (-1) (-1) (-1) (-1)).
  { unfold split, msPerDay, msPerHour, msPerMinute.
    assert (Hrem : ∀ m, 1000 < m → Z.rem diff m = diff).
    { intros m Hm. apply Z.rem_small_iff; lia. }
    rewrite !Hrem by lia.
    f_equal; symmetry.
    - apply (Z.div_unique _ _ (-1) (diff + 86400000)); lia.
    - apply (Z.div_unique _ _ (-1) (diff + 3600000)); lia.
    - apply (Z.div_unique _ _ (-1) (diff + 60000)); lia.
    - apply (Z.div_unique _ _ (-1) (diff + 1000)); lia. }
  by rewrite Hs.
Qed.


(** 1 day, 2 hours, 3 minutes, 4 seconds and 5 milliseconds. *)
Lemma split_decomposes_witness :
  93784005 = days (split 93784005) * msPerDay + hours (split 93784005) * msPerHour
             + minutes (split 93784005) * msPerMinute + seconds (split 93784005) * 1000
             + 93784005 mod 1000
  ∧ 0 ≤ days (split 93784005)
  ∧ 0 ≤ hours (split 93784005) < 24
  ∧ 0 ≤ minutes (split 93784005) < 60
  ∧ 0 ≤ seconds (split 93784005) < 60.
Proof. apply (split_decomposes 93784005). lia. Defined.

Lemma shown_width_witness :
  (2 ≤ String.length (show (days (split 93784005))))%nat
  ∧ String.length (show (hours (split 93784005))) = 2%nat
  ∧ String.length (show (minutes (split 93784005))) = 2%nat
  ∧ String.length (show (seconds (split 93784005))) = 2%nat.
Proof. apply (shown_width 93784005). lia. Defined.

Lemma split_just_passed_witness :
  split (-1) = Fields (-1) (-1) (-1) (-1)
  ∧ map show [days (split (-1)); hours (split (-1)); minutes (split (-1));
              seconds (split (-1))]
    = ["-1"; "-1"; "-1"; "-1"].
Proof. apply (split_just_passed (-1)). lia. Defined.

End CountdownMore.
